(** * creatartis-base: the [Statistics] bundle and the asynchronous core

    A shallow embedding of [src/Statistics.js] and of the parts of the
    ECMAScript built-ins it calls ([JSON.stringify], [Array.prototype.slice],
    [sort], [map], [join], [Object.keys], [Array.isArray]).

    Scope of the data model.  JavaScript values are restricted to plain,
    JSON-like data: [undefined], [null], booleans, integer-valued numbers,
    strings whose code units are below 256, dense arrays and plain objects
    without accessors, [toJSON] or [toString] overrides.  A number stands
    for a JavaScript number when it is below [2^53] in absolute value: these
    integers are held exactly and [Number::toString] writes them digit by
    digit (the notion [safe_integer]).  [NaN], the infinities, fractions and the negative zero are
    outside the model.  Members of an array or object are kept by value (a
    finite tree): there are no cycles, and no value on which
    [JSON.stringify] raises.  The aggregates a caller holds a reference to
    live in a store, so that in-place operations such as [sort] and their
    aliasing are visible.

    [Statistic.js], [core.js] and [Future.js] are not among the sources at
    hand: the accumulator class is an interface the bundle is parameterised
    by, and the asynchronous core follows the specification. *)

From Stdlib Require Import ZArith Ascii String DecimalString DecimalPos DecimalZ.
From stdpp Require Import gmap strings list sorting.

Local Open Scope string_scope.
Local Open Scope list_scope.
Local Open Scope nat_scope.
Set Warnings "-register-all".

(** ** Plain data *)

Inductive jsdata : Type :=
  | JUndefined
  | JNull
  | JBool (b : bool)
  | JNumber (n : Z)
  | JString (s : string)
  | JArray (elems : list jsdata)
  | JObject (props : list (string * jsdata)).

(** The double quote and the backslash, as one-character strings. *)
Definition dquote : string := String "034"%char EmptyString.
Definition backslash : string := String "092"%char EmptyString.

(** [Number::toString] on an integer-valued number below [2^53] in absolute
    value: the decimal numeral, with a leading minus sign for negatives.
    (From [10^21] on the built-in writes an exponent; this function keeps
    writing digits.) *)
Definition Number_toString (n : Z) : string :=
  NilZero.string_of_int (Z.to_int n).

(** [Array.prototype.join] on an array whose members are already strings. *)
Definition join (sep : string) (parts : list string) : string :=
  String.concat sep parts.

(** [ToString] (ECMA-262, 7.1.17) on plain data.  An array converts through
    [Array.prototype.join], which renders [undefined] and [null] members as
    the empty string; a plain object converts to a fixed text. *)
Fixpoint ToString (v : jsdata) : string :=
  match v with
  | JUndefined => "undefined"
  | JNull => "null"
  | JBool true => "true"
  | JBool false => "false"
  | JNumber n => Number_toString n
  | JString s => s
  | JArray elems =>
      join "," (map (fun e => match e with
                              | JUndefined | JNull => ""
                              | _ => ToString e
                              end) elems)
  | JObject _ => "[object Object]"
  end.

(** *** [JSON.stringify] *)

Definition hex_digit (n : N) : string :=
  String (match n with
          | 0 => "0" | 1 => "1" | 2 => "2" | 3 => "3" | 4 => "4" | 5 => "5"
          | 6 => "6" | 7 => "7" | 8 => "8" | 9 => "9" | 10 => "a" | 11 => "b"
          | 12 => "c" | 13 => "d" | 14 => "e" | _ => "f"
          end%N%char) EmptyString.

(** One code unit of [QuoteJSONString] (ECMA-262, 25.5.2.3). *)
Definition quote_char (c : ascii) : string :=
  let n := N_of_ascii c in
  if (n =? 8)%N then backslash +:+ "b"
  else if (n =? 9)%N then backslash +:+ "t"
  else if (n =? 10)%N then backslash +:+ "n"
  else if (n =? 12)%N then backslash +:+ "f"
  else if (n =? 13)%N then backslash +:+ "r"
  else if (n =? 34)%N then backslash +:+ dquote
  else if (n =? 92)%N then backslash +:+ backslash
  else if (n <? 32)%N then
    backslash +:+ "u00" +:+ hex_digit (n / 16) +:+ hex_digit (n mod 16)
  else String c EmptyString.

Fixpoint quote_chars (s : string) : string :=
  match s with
  | EmptyString => EmptyString
  | String c s' => quote_char c +:+ quote_chars s'
  end.

Definition QuoteJSONString (s : string) : string :=
  dquote +:+ quote_chars s +:+ dquote.

(** [JSON.stringify v] with no replacer and no indentation.  The result is
    [None] where JavaScript yields [undefined].  Inside an array an
    [undefined] member is written [null]; inside an object a property whose
    value is [undefined] is left out. *)
Fixpoint JSON_stringify (v : jsdata) : option string :=
  match v with
  | JUndefined => None
  | JNull => Some "null"
  | JBool true => Some "true"
  | JBool false => Some "false"
  | JNumber n => Some (Number_toString n)
  | JString s => Some (QuoteJSONString s)
  | JArray elems =>
      Some ("[" +:+
            join "," (map (fun e => match JSON_stringify e with
                                    | Some s => s
                                    | None => "null"
                                    end) elems) +:+ "]")
  | JObject props =>
      Some ("{" +:+
            join "," ((fix members (ps : list (string * jsdata)) : list string :=
                         match ps with
                         | [] => []
                         | (k, e) :: ps' =>
                             match JSON_stringify e with
                             | Some s =>
                                 (QuoteJSONString k +:+ ":" +:+ s) :: members ps'
                             | None => members ps'
                             end
                         end) props) +:+ "}")
  end.

(** String concatenation with [+] coerces a non-string operand through
    [ToString]; the only non-string [JSON.stringify] can produce is
    [undefined]. *)
Definition str (r : option string) : string :=
  match r with
  | Some s => s
  | None => "undefined"
  end.

(** [Array.prototype.join]: [undefined] and [null] members give the empty
    string, every other member its [ToString]. *)
Definition Array_join (sep : string) (elems : list jsdata) : string :=
  join sep (map (fun e => match e with
                          | JUndefined | JNull => ""
                          | _ => ToString e
                          end) elems).

(** [Array.isArray]. *)
Definition Array_isArray (v : jsdata) : bool :=
  match v with
  | JArray _ => true
  | _ => false
  end.

(** [ToBoolean] (ECMA-262, 7.1.2); the numbers of the model are integers, so
    the only falsy one is zero.  Arrays and objects are always truthy. *)
Definition ToBoolean (v : jsdata) : bool :=
  match v with
  | JUndefined | JNull => false
  | JBool b => b
  | JNumber n => negb (n =? 0)%Z
  | JString s => negb (String.eqb s "")
  | JArray _ | JObject _ => true
  end.

(** Property read [o[n]] on the own properties of a plain object. *)
Fixpoint Get (props : list (string * jsdata)) (n : string) : jsdata :=
  match props with
  | [] => JUndefined
  | (k, v) :: props' => if String.eqb k n then v else Get props' n
  end.

(** *** [Array.prototype.sort] without a comparison function *)

(** [SortCompare] (ECMA-262, 23.1.3.30.2): [undefined] goes last, everything
    else is ordered by the code units of its [ToString]. *)
Definition SortCompare (x y : jsdata) : comparison :=
  match x, y with
  | JUndefined, JUndefined => Eq
  | JUndefined, _ => Gt
  | _, JUndefined => Lt
  | _, _ => String.compare (ToString x) (ToString y)
  end.

(** The sorted order is the stable one (members that compare equal keep their
    relative order), which an insertion from the right computes. *)
Fixpoint sort_insert (x : jsdata) (l : list jsdata) : list jsdata :=
  match l with
  | [] => [x]
  | y :: l' =>
      match SortCompare x y with
      | Gt => y :: sort_insert x l'
      | _ => x :: l
      end
  end.

Fixpoint sorted (l : list jsdata) : list jsdata :=
  match l with
  | [] => []
  | x :: l' => sort_insert x (sorted l')
  end.

(** ** The store *)

(** An array or object a caller holds a reference to is a cell of the store;
    a JavaScript value is either given by value or is such a reference. *)
Abbreviation loc := nat (only parsing).
Abbreviation heap := (list jsdata) (only parsing).

Inductive jsvalue : Type :=
  | Imm (d : jsdata)
  | Ref (l : loc).

(** The data a value stands for.  A reference outside the store does not
    occur in JavaScript; it reads as [undefined] here. *)
Definition deref (h : heap) (v : jsvalue) : jsdata :=
  match v with
  | Imm d => d
  | Ref l => default JUndefined (h !! l)
  end.

(** Creation of a new array or object. *)
Definition alloc (d : jsdata) (h : heap) : loc * heap :=
  (length h, h ++ [d]).

(** [a.slice()]: a new array with the members of [a]. *)
Definition Array_slice (elems : list jsdata) (h : heap) : loc * heap :=
  alloc (JArray elems) h.

(** [Object.keys(o)]: a new array with the names of the own enumerable
    properties of [o], in enumeration order. *)
Definition Object_keys (props : list (string * jsdata)) (h : heap) : loc * heap :=
  alloc (JArray (map (fun p => JString (fst p)) props)) h.

(** [a.sort()]: sorts the array at [a] in place (and returns [a]). *)
Definition Array_sort (a : loc) (h : heap) : heap :=
  match h !! a with
  | Some (JArray elems) => <[a := JArray (sorted elems)]> h
  | _ => h
  end.

(** [a.map(f)]: a new array with the images of the members of [a]. *)
Definition Array_map (f : jsdata -> jsdata) (a : loc) (h : heap) : loc * heap :=
  match h !! a with
  | Some (JArray elems) => alloc (JArray (map f elems)) h
  | _ => alloc (JArray []) h
  end.

(** The members of the array at [a]. *)
Definition Array_elems (a : loc) (h : heap) : list jsdata :=
  match h !! a with
  | Some (JArray elems) => elems
  | _ => []
  end.

(** ** [Statistics.prototype.__id__] *)

(** The function mapped over the sorted property names: the text of one
    property, [JSON.stringify(n) +':'+ JSON.stringify(keys[n])]. *)
Definition member_text (props : list (string * jsdata)) (n : jsdata) : string :=
  str (JSON_stringify n) +:+ ":" +:+
  str (JSON_stringify (Get props (ToString n))).

(** [__id__(keys)], lines 15 to 27.  The three branches are those of the
    source: [keys] is an array ([JSON.stringify(keys.slice().sort())]), a
    non-null object that is not an array (the sorted property names, mapped
    to their texts and joined), or anything else ([JSON.stringify(keys)+'']).
    The result is what [JSON.stringify] or the concatenation returns, and the
    store after the call. *)
Definition __id__ (keys : jsvalue) (h : heap) : option string * heap :=
  match deref h keys with
  | JArray elems =>
      let '(c, h1) := Array_slice elems h in
      let h2 := Array_sort c h1 in
      (JSON_stringify (JArray (Array_elems c h2)), h2)
  | JObject props =>
      let '(ns, h1) := Object_keys props h in
      let h2 := Array_sort ns h1 in
      let '(ms, h3) :=
        Array_map (fun n => JString (member_text props n)) ns h2 in
      (Some (Array_join "," (Array_elems ms h3)), h3)
  | d => (Some (str (JSON_stringify d) +:+ ""), h)
  end.

(** ** Notions used in the statements *)

(** The order [sort] arranges an array in. *)
Definition sort_le (x y : jsdata) : Prop := SortCompare x y ≠ Gt.

(** The names of the properties of an object, as [Object.keys] lists them. *)
Definition names (props : list (string * jsdata)) : list jsdata :=
  map (λ p, JString (fst p)) props.

(** Members that the default comparison cannot tell apart are equal. *)
Definition separated (l : list jsdata) : Prop :=
  ∀ x y, x ∈ l → y ∈ l → SortCompare x y = Eq → x = y.

(** Two key arguments denote the same key-set: arrays with the same members
    in any arrangement, members with the same string conversion being equal,
    or objects with the same properties in any enumeration order (the names
    of the properties of an object are distinct). *)
Inductive same_key_set (h : heap) (k1 k2 : jsvalue) : Prop :=
  | same_array (a1 a2 : list jsdata) :
      deref h k1 = JArray a1 → deref h k2 = JArray a2 →
      a1 ≡ₚ a2 → separated a1 → same_key_set h k1 k2
  | same_object (p1 p2 : list (string * jsdata)) :
      deref h k1 = JObject p1 → deref h k2 = JObject p2 →
      p1 ≡ₚ p2 → NoDup p1.*1 → same_key_set h k1 k2.

(** A value that is given by value or refers to a cell of the store. *)
Definition valid (h : heap) (v : jsvalue) : Prop :=
  match v with
  | Imm _ => True
  | Ref l => l < length h
  end.

(** The names every object inherits a property under from
    [Object.prototype]; a property read [o[n]] finds these even when [o] has
    no own property [n]. *)
Definition Object_prototype : list string :=
  ["constructor"; "hasOwnProperty"; "isPrototypeOf"; "propertyIsEnumerable";
   "toLocaleString"; "toString"; "valueOf"; "__proto__";
   "__defineGetter__"; "__defineSetter__"; "__lookupGetter__";
   "__lookupSetter__"].

Definition first_char (s : string) : option ascii :=
  match s with
  | EmptyString => None
  | String c _ => Some c
  end.

(** The shapes an identifier can have: empty, one of four words, or a text
    that starts with a double quote, a bracket, a minus sign or a digit. *)
Definition id_start (c : ascii) : bool :=
  let n := N_of_ascii c in
  ((n =? 34) || (n =? 91) || (n =? 45) || ((48 <=? n) && (n <=? 57)))%N.

Definition id_shaped (s : string) : bool :=
  match first_char s with
  | None => true
  | Some c =>
      id_start c ||
      bool_decide (s ∈ ["undefined"; "null"; "true"; "false"])
  end.

(** ** Results of calls *)

(** A call either returns or raises an [Error] with a message. *)
Inductive outcome (A : Type) : Type :=
  | Return (a : A)
  | Throw (msg : string).
Arguments Return {A} a.
Arguments Throw {A} msg.

Definition is_Return {A} (r : outcome A) : Prop :=
  match r with
  | Return _ => True
  | Throw _ => False
  end.

(** The receiver of a method, returned "for chaining". *)
Inductive receiver : Type := this.

(** Modelled from the spec: [raiseIf] is defined in core.js, which is not
    among the sources, and the specification does not describe it; it is
    taken by its name and by its use in [addObject]: it raises an error
    carrying the message when the condition holds, and does nothing
    otherwise. *)
Definition raiseIf (condition : bool) (message : string) : outcome unit :=
  if condition then Throw message else Return ().

(** The methods of a [Statistic] that the update shortcuts forward to. *)
Inductive method : Type :=
  | m_add | m_gain | m_addAll | m_gainAll
  | m_startTime | m_addTime | m_addTick.

(** The members a [for ... in] loop visits, with their values: the indices of
    an array or of a string, the properties of an object in enumeration
    order, nothing for the other primitives.  No enumerable property is
    inherited from a prototype. *)
Fixpoint indexed {A} (i : nat) (l : list A) : list (string * A) :=
  match l with
  | [] => []
  | x :: l' => (Number_toString (Z.of_nat i), x) :: indexed (S i) l'
  end.

Fixpoint chars (s : string) : list jsdata :=
  match s with
  | EmptyString => []
  | String c s' => JString (String c EmptyString) :: chars s'
  end.

Definition enumerate (d : jsdata) : list (string * jsdata) :=
  match d with
  | JArray elems => indexed 0 elems
  | JObject props => props
  | JString s => indexed 0 (chars s)
  | _ => []
  end.

(** ** The [Statistics] bundle *)

(** [Statistic] (Statistic.js) is not among the sources.  The state of one
    accumulator object, its constructor and its methods are an interface the
    bundle is parameterised by: a method receives its arguments, reads the
    store, and returns or raises while updating the accumulator it is called
    on.  An accumulator holds no reference to the bundle it is stored in. *)
Class Accumulator : Type := {
  Statistic : Type;
  Result : Type;
  Statistic_new : jsvalue → heap → Statistic;
  Statistic_call :
    method → list jsvalue → heap → Statistic → outcome Result * Statistic
}.

Section Statistics.

Context `{Accumulator}.

(** A [Statistics] instance in its environment: the table [__stats__] from
    identifiers to accumulator objects, the accumulator objects themselves
    (the table holds references to them), and the store of arrays and
    objects. *)
Record state : Type := State {
  __stats__ : gmap string loc;
  objects : list Statistic;
  store : heap
}.

(** [constructor], lines 8 to 10: [this.__stats__ = {}], in an environment
    with the accumulator objects [objs] and the store [h]. *)
Definition Statistics (objs : list Statistic) (h : heap) : state :=
  State ∅ objs h.

(** [stat(keys)], lines 43 to 46:
    [this.__stats__[id] || (this.__stats__[id] = new Statistic(keys))].
    The identifier is used as a property name, which
    converts it to a string.  A stored accumulator is an object, hence
    truthy, and an identifier is never the name of a property inherited from
    [Object.prototype] ([id_not_inherited] below), so [||] creates an
    accumulator exactly when the table has no entry of its own. *)
Definition stat (keys : jsvalue) (s : state) : loc * state :=
  let '(id, h) := __id__ keys (store s) in
  match __stats__ s !! str id with
  | Some st => (st, State (__stats__ s) (objects s) h)
  | None =>
      let st := length (objects s) in
      (st, State (<[str id := st]> (__stats__ s))
                 (objects s ++ [Statistic_new keys h]) h)
  end.

(** A method call [st.m(args)] on the accumulator at [st].  A reference to no
    accumulator does not occur in JavaScript; calling a method on it raises
    here. *)
Definition call (m : method) (st : loc) (args : list jsvalue) (s : state)
  : outcome Result * state :=
  match objects s !! st with
  | Some o =>
      let '(r, o') := Statistic_call m args (store s) o in
      (r, State (__stats__ s) (<[st := o']> (objects s)) (store s))
  | None => (Throw "TypeError", s)
  end.

(** *** Statistic updating shortcuts *)

(** Lines 96 to 140, each one a single [return this.stat(keys).m(...)]. *)

(** [this.stat(keys).add(value, data)] *)
Definition add (keys value data : jsvalue) (s : state)
  : outcome Result * state :=
  let '(st, s1) := stat keys s in call m_add st [value; data] s1.

(** [this.stat(keys).gain(value, factor, data)] *)
Definition gain (keys value factor data : jsvalue) (s : state)
  : outcome Result * state :=
  let '(st, s1) := stat keys s in call m_gain st [value; factor; data] s1.

(** [this.stat(keys).addAll(values, data)] *)
Definition addAll (keys values data : jsvalue) (s : state)
  : outcome Result * state :=
  let '(st, s1) := stat keys s in call m_addAll st [values; data] s1.

(** [this.stat(keys).addAll(values, data)], as the source has it: the
    method called is [addAll], and [factor] is not passed on. *)
Definition gainAll (keys values factor data : jsvalue) (s : state)
  : outcome Result * state :=
  let '(st, s1) := stat keys s in call m_addAll st [values; data] s1.

(** [this.stat(keys).startTime(timestamp)] *)
Definition startTime (keys timestamp : jsvalue) (s : state)
  : outcome Result * state :=
  let '(st, s1) := stat keys s in call m_startTime st [timestamp] s1.

(** [this.stat(keys).addTime(data)] *)
Definition addTime (keys data : jsvalue) (s : state)
  : outcome Result * state :=
  let '(st, s1) := stat keys s in call m_addTime st [data] s1.

(** [this.stat(keys).addTick(data)] *)
Definition addTick (keys data : jsvalue) (s : state)
  : outcome Result * state :=
  let '(st, s1) := stat keys s in call m_addTick st [data] s1.

(** *** [addObject(obj, data)], lines 51 to 61 *)

(** One round of the loop body. *)
Definition addObject_member (name : string) (member : jsdata)
    (data : jsvalue) (s : state) : outcome Result * state :=
  if Array_isArray member
  then addAll (Imm (JString name)) (Imm member) data s
  else add (Imm (JString name)) (Imm member) data s.

(** The [for ... in] loop; an error raised by the body leaves the loop. *)
Fixpoint addObject_loop (members : list (string * jsdata))
    (data : jsvalue) (s : state) : outcome unit * state :=
  match members with
  | [] => (Return (), s)
  | (name, member) :: rest =>
      match addObject_member name member data s with
      | (Return _, s1) => addObject_loop rest data s1
      | (Throw e, s1) => (Throw e, s1)
      end
  end.

(** The guard [raiseIf(!obj, ...)], whose message is computed before the
    call, then the loop, then [return this]. *)
Definition addObject (obj data : jsvalue) (s : state)
  : outcome receiver * state :=
  let d := deref (store s) obj in
  match raiseIf (negb (ToBoolean d))
                ("Cannot add object " +:+ str (JSON_stringify d) +:+ ".") with
  | Throw e => (Throw e, s)
  | Return _ =>
      match addObject_loop (enumerate d) data s with
      | (Return _, s') => (Return this, s')
      | (Throw e, s') => (Throw e, s')
      end
  end.

(** *** Notions used in the statements *)

(** The identifier [stat] looks [keys] up under. *)
Definition entry (keys : jsvalue) (s : state) : string :=
  str (__id__ keys (store s)).1.

(** The actions every update of the bundle is made of: a lookup through
    [stat], and a method call on an accumulator. *)
Inductive step : state → state → Prop :=
  | step_stat (keys : jsvalue) (s : state) : step s (stat keys s).2
  | step_call (m : method) (st : loc) (args : list jsvalue) (s : state) :
      step s (call m st args s).2.

(** The table refers to accumulator objects that exist. *)
Definition wf (s : state) : Prop :=
  map_Forall (λ _ st, st < length (objects s)) (__stats__ s).



(** The accumulator accepts every [add] and [addAll] call. *)
Definition accepts_additions : Prop :=
  ∀ m args h o, m = m_add ∨ m = m_addAll →
                is_Return (Statistic_call m args h o).1.

End Statistics.

(** ** A recording accumulator *)

(** An instance of the interface, for running the bundle on concrete inputs:
    an accumulator that keeps the keys it was created with and records, in
    order, the name and the arguments of every call it receives. *)
Record recording : Type := Recorded {
  created_with : jsdata;
  calls : list (method * list jsvalue)
}.

#[export] Instance Recorder : Accumulator := {
  Statistic := recording;
  Result := receiver;
  Statistic_new k h := Recorded (deref h k) [];
  Statistic_call m args h o :=
    (Return this, Recorded (created_with o) (calls o ++ [(m, args)]))
}.

(** Concrete inputs for the recording accumulator. *)
Definition k_a : jsvalue := Imm (JString "a").

(** A new bundle over a store with two arrangements of the same keys and two
    enumeration orders of the same object. *)
Definition demo_store : heap :=
  [JArray [JString "y"; JString "x"; JNumber 7];
   JArray [JNumber 7; JString "y"; JString "x"];
   JObject [("p", JNumber 1); ("q", JNull)];
   JObject [("q", JNull); ("p", JNumber 1)]].

Definition demo : state := Statistics [] demo_store.

Definition demo_obj : jsvalue :=
  Imm (JObject [("a", JNumber 1); ("b", JArray [JNumber 2; JNumber 3])]).

(** * The asynchronous core *)

(** Modelled from the spec: Future.js, with the [Future] class and its
    combinators, is not among the sources; this module follows sections 3 to
    5, 7 and 8 of the specification.  Futures live in a world together with the cooperative
    scheduler's queue, the timers and a clock.  The callables an application
    supplies (continuations, the callable of [invoke], the action of [retry])
    are pure: they return or raise, and do not act on the world themselves.
    Values are plain data, failure reasons are messages. *)
Module Future.

Abbreviation fid := nat (only parsing).

(** Modelled from the spec: the state of a Future, from the data model of
    Future.js: PENDING, FULFILLED(value) or REJECTED(reason). *)
Inductive status : Type :=
  | PENDING
  | FULFILLED (value : jsdata)
  | REJECTED (reason : string).

(** Modelled from the spec: what a settling call of Future.js supplies, a
    success value or a failure reason. *)
Inductive settlement : Type :=
  | Fulfill (value : jsdata)
  | Fail (reason : string).

(** Modelled from the spec: the state a settling call of Future.js leaves
    the Future in. *)
Definition settled (o : settlement) : status :=
  match o with
  | Fulfill v => FULFILLED v
  | Fail e => REJECTED e
  end.

(** Modelled from the spec: what the callable given to [invoke] of Future.js
    produces when it returns: a plain value, or a Future. *)
Inductive returned : Type :=
  | Plain (v : jsdata)
  | AFuture (f : fid).

(** Modelled from the spec: the action given to [retry] of Future.js returns
    a Future on each invocation; the model records how that Future behaves:
    it settles some time after the invocation in a given way, or never. *)
Definition script : Type := nat → option (nat * settlement).

(** Modelled from the spec: what a Future of Future.js holds for the moment
    it settles.  [Continuation] is the pair of handlers registered by [then],
    bound to the dependent Future it must settle; the other three are the
    bookkeeping of the combinators: [Collect] waits for the [i]-th input of an
    [all], [Attempt] for the Future of the [k]-th invocation of a retried
    action, [Again] for the delay before the [k]-th invocation. *)
Inductive reaction : Type :=
  | Continuation (onFulfilled : option (jsdata → outcome jsdata))
                 (onRejected : option (string → outcome jsdata))
                 (dependent : fid)
  | Collect (i : nat) (result : fid)
  | Attempt (action : script) (delayPolicy : nat → nat) (attempts k : nat)
            (result : fid)
  | Again (action : script) (delayPolicy : nat → nat) (attempts k : nat)
          (result : fid).

(** Modelled from the spec: a Future of Future.js, its state and the ordered
    sequence of what is registered on it while it is pending. *)
Record future : Type := MkFuture {
  state_of : status;
  continuations : list reaction
}.

(** Modelled from the spec: the calling context of Future.js.  [queue] is the
    cooperative scheduler: what is to run on the coming turns, in order.
    [timers] are ordered by due time.  [slots] holds, for the result of each
    [all], the values collected so far.  [invocations] lists the invocations
    of retried actions: the result Future of the [retry] that made the
    invocation, and the number of the invocation. *)
Record world : Type := World {
  futures : list future;
  queue : list (reaction * settlement);
  timers : list (nat * (fid * settlement));
  clock : nat;
  slots : gmap fid (list (option jsdata));
  invocations : list (fid * nat)
}.

Definition empty_world : world := World [] [] [] 0 ∅ [].

Definition set_futures (fs : list future) (w : world) : world :=
  World fs (queue w) (timers w) (clock w) (slots w) (invocations w).

Definition set_queue (q : list (reaction * settlement)) (w : world) : world :=
  World (futures w) q (timers w) (clock w) (slots w) (invocations w).

Definition set_timers (ts : list (nat * (fid * settlement))) (w : world)
  : world :=
  World (futures w) (queue w) ts (clock w) (slots w) (invocations w).

Definition set_clock (t : nat) (w : world) : world :=
  World (futures w) (queue w) (timers w) t (slots w) (invocations w).

Definition set_slots (sl : gmap fid (list (option jsdata))) (w : world)
  : world :=
  World (futures w) (queue w) (timers w) (clock w) sl (invocations w).

Definition set_invocations (l : list (fid * nat)) (w : world) : world :=
  World (futures w) (queue w) (timers w) (clock w) (slots w) l.

(** Modelled from the spec: the state inspection of Future.js
    ([isPending], [isFulfilled], [isRejected]): the state of the Future [f],
    if there is such a Future. *)
Definition state (f : fid) (w : world) : option status :=
  state_of <$> futures w !! f.

(** Modelled from the spec: creation of a Future of Future.js, PENDING and
    with nothing registered. *)
Definition new_future (w : world) : fid * world :=
  (length (futures w), set_futures (futures w ++ [MkFuture PENDING []]) w).

(** Modelled from the spec: settlement in Future.js.  A pending Future takes
    the value or reason, and what was registered on it is handed to the
    scheduler in registration order and discarded from the Future; on a
    settled Future nothing happens. *)
Definition settle (f : fid) (o : settlement) (w : world) : world :=
  match futures w !! f with
  | Some (MkFuture PENDING ks) =>
      set_queue (queue w ++ map (λ k, (k, o)) ks)
                (set_futures (<[f := MkFuture (settled o) []]> (futures w)) w)
  | _ => w
  end.

(** Modelled from the spec: the policy choice of section 7 of the
    specification for Future.js: settling a settled Future is silently
    ignored, or reported as an error. *)
Inductive policy : Type := Lenient | Strict.

(** Modelled from the spec: what a settling call of Future.js reports under
    either policy. *)
Definition report (p : policy) (f : fid) (w : world) : outcome unit :=
  match futures w !! f with
  | Some (MkFuture PENDING _) => Return ()
  | _ =>
      match p with
      | Lenient => Return ()
      | Strict => Throw "Future already settled"
      end
  end.

(** Modelled from the spec: [fulfill(value)] of Future.js. *)
Definition fulfill (p : policy) (f : fid) (v : jsdata) (w : world)
  : outcome unit * world :=
  (report p f w, settle f (Fulfill v) w).

(** Modelled from the spec: [fail(reason)] of Future.js. *)
Definition fail (p : policy) (f : fid) (e : string) (w : world)
  : outcome unit * world :=
  (report p f w, settle f (Fail e) w).

(** Modelled from the spec: registration on a Future of Future.js: appended
    while the Future is pending, scheduled for the next turn once it is
    settled. *)
Definition register (f : fid) (k : reaction) (w : world) : world :=
  match futures w !! f with
  | Some (MkFuture PENDING ks) =>
      set_futures (<[f := MkFuture PENDING (ks ++ [k])]> (futures w)) w
  | Some (MkFuture (FULFILLED v) _) => set_queue (queue w ++ [(k, Fulfill v)]) w
  | Some (MkFuture (REJECTED e) _) => set_queue (queue w ++ [(k, Fail e)]) w
  | None => w
  end.

(** Modelled from the spec: [then(onFulfilled, onRejected)] of Future.js
    returns a new dependent Future. *)
Definition then_ (f : fid) (onFulfilled : option (jsdata → outcome jsdata))
    (onRejected : option (string → outcome jsdata)) (w : world) : fid * world :=
  let '(d, w1) := new_future w in
  (d, register f (Continuation onFulfilled onRejected d) w1).

(** Modelled from the spec: the timer primitive [delay] of Future.js relies
    on.  Timers are kept in the order they fall due; among timers due at the
    same time the one set first comes first. *)
Fixpoint add_timer (due : nat) (ev : fid * settlement)
    (ts : list (nat * (fid * settlement))) : list (nat * (fid * settlement)) :=
  match ts with
  | [] => [(due, ev)]
  | (d, e) :: ts' =>
      if (due <? d)%nat then (due, ev) :: ts else (d, e) :: add_timer due ev ts'
  end.

(** Modelled from the spec: [delay(ms)] of Future.js, a Future that a timer
    fulfills. *)
Definition delay (ms : nat) (w : world) : fid * world :=
  let '(d, w1) := new_future w in
  (d, set_timers (add_timer (clock w + ms) (d, Fulfill JUndefined) (timers w1))
                 w1).

(** Modelled from the spec: one invocation of the action of [retry] of
    Future.js, made for the [retry] whose result is [result]; the action
    returns a Future, which settles as the script says. *)
Definition invoke_action (action : script) (k : nat) (result : fid)
    (w : world) : fid * world :=
  let '(a, w1) := new_future w in
  let w2 := set_invocations (invocations w1 ++ [(result, k)]) w1 in
  (a, match action k with
      | Some (d, o) => set_timers (add_timer (clock w + d) (a, o) (timers w2)) w2
      | None => w2
      end).

(** Modelled from the spec: one attempt of [retry] of Future.js: the action
    is invoked and the attempt waits for its Future. *)
Definition attempt (action : script) (delayPolicy : nat → nat)
    (attempts k : nat) (result : fid) (w : world) : world :=
  let '(a, w1) := invoke_action action k result w in
  register a (Attempt action delayPolicy attempts k result) w1.

(** Modelled from the spec: the values collected by an [all] of Future.js,
    in input order, once none is missing. *)
Fixpoint collected (sl : list (option jsdata)) : option (list jsdata) :=
  match sl with
  | [] => Some []
  | Some v :: sl' => cons v <$> collected sl'
  | None :: _ => None
  end.

(** Modelled from the spec: the result of an [all] of Future.js fulfills with
    the values in input order once every input is fulfilled. *)
Definition complete (r : fid) (w : world) : world :=
  match slots w !! r with
  | Some sl =>
      match collected sl with
      | Some vs => settle r (Fulfill (JArray vs)) w
      | None => w
      end
  | None => w
  end.

(** Modelled from the spec: what the scheduler of Future.js runs when a
    settled Future's registration comes up.  A handler's return value fulfills
    the dependent Future, a handler that raises rejects it, a missing handler
    passes the settlement on.  An input of [all] fills its slot, or rejects
    the result at once.  An attempt of [retry] fulfills the result on success;
    on failure it waits as the delay policy says and tries again, or rejects
    the result with this failure's reason when no attempt is left. *)
Definition react (k : reaction) (o : settlement) (w : world) : world :=
  match k with
  | Continuation onFulfilled onRejected d =>
      match o with
      | Fulfill v =>
          match onFulfilled with
          | Some handler =>
              match handler v with
              | Return r => settle d (Fulfill r) w
              | Throw e => settle d (Fail e) w
              end
          | None => settle d (Fulfill v) w
          end
      | Fail e =>
          match onRejected with
          | Some handler =>
              match handler e with
              | Return r => settle d (Fulfill r) w
              | Throw e' => settle d (Fail e') w
              end
          | None => settle d (Fail e) w
          end
      end
  | Collect i r =>
      match o with
      | Fulfill v =>
          complete r (set_slots (alter (λ sl, <[i := Some v]> sl) r (slots w)) w)
      | Fail e => settle r (Fail e) w
      end
  | Attempt action delayPolicy attempts k r =>
      match o with
      | Fulfill v => settle r (Fulfill v) w
      | Fail e =>
          if (S k <? attempts)%nat
          then let '(d, w1) := delay (delayPolicy k) w in
               register d (Again action delayPolicy attempts (S k) r) w1
          else settle r (Fail e) w
      end
  | Again action delayPolicy attempts k r =>
      attempt action delayPolicy attempts k r w
  end.

(** Modelled from the spec: one turn of the cooperative scheduler of
    Future.js: the first scheduled registration runs; when nothing is
    scheduled, time passes until the next timer fires. *)
Definition turn (w : world) : world :=
  match queue w with
  | (k, o) :: q => react k o (set_queue q w)
  | [] =>
      match timers w with
      | (due, (f, o)) :: ts =>
          settle f o (set_clock (Nat.max (clock w) due) (set_timers ts w))
      | [] => w
      end
  end.

(** Modelled from the spec: [n] turns of the scheduler of Future.js. *)
Definition run (n : nat) (w : world) : world := Nat.iter n turn w.

(** Nothing is scheduled and no timer is set. *)
Definition quiescent (w : world) : Prop := queue w = [] ∧ timers w = [].

(** Modelled from the spec: [all(futures)] of Future.js. *)
Definition all (fs : list fid) (w : world) : fid * world :=
  let '(r, w1) := new_future w in
  let w2 := set_slots (<[r := replicate (length fs) None]> (slots w1)) w1 in
  let w3 := foldl (λ w' '(i, f), register f (Collect i r) w') w2
                  (imap (λ i f, (i, f)) fs) in
  (r, complete r w3).

(** Modelled from the spec: [retry(action, attempts, delayPolicy)] of
    Future.js.  The specification does not say what happens when [attempts]
    is zero; here nothing is invoked and the result stays pending. *)
Definition retry (action : script) (attempts : nat) (delayPolicy : nat → nat)
    (w : world) : fid * world :=
  let '(r, w1) := new_future w in
  (r, match attempts with
      | 0 => w1
      | S _ => attempt action delayPolicy attempts 0 r w1
      end).

(** Modelled from the spec: [invoke(fn, ...args)] of Future.js: a plain value
    becomes a fulfilled Future, a returned Future is passed on, and a
    callable that raises gives a rejected Future. *)
Definition invoke (fn : list jsdata → outcome returned) (args : list jsdata)
    (w : world) : outcome fid * world :=
  match fn args with
  | Return (Plain v) =>
      let '(r, w1) := new_future w in (Return r, settle r (Fulfill v) w1)
  | Return (AFuture f) => (Return f, w)
  | Throw e =>
      let '(r, w1) := new_future w in (Return r, settle r (Fail e) w1)
  end.

(** Modelled from the spec: the calls an application and the scheduler make
    on the Futures of Future.js. *)
Inductive operation : Type :=
  | op_new
  | op_fulfill (f : fid) (v : jsdata)
  | op_fail (f : fid) (e : string)
  | op_then (f : fid) (onFulfilled : option (jsdata → outcome jsdata))
            (onRejected : option (string → outcome jsdata))
  | op_all (fs : list fid)
  | op_delay (ms : nat)
  | op_retry (action : script) (attempts : nat) (delayPolicy : nat → nat)
  | op_invoke (fn : list jsdata → outcome returned) (args : list jsdata)
  | op_turn.

(** Modelled from the spec: the world after one such call, under the
    settlement policy [p]. *)
Definition perform (p : policy) (w : world) (op : operation) : world :=
  match op with
  | op_new => (new_future w).2
  | op_fulfill f v => (fulfill p f v w).2
  | op_fail f e => (fail p f e w).2
  | op_then f onFulfilled onRejected => (then_ f onFulfilled onRejected w).2
  | op_all fs => (all fs w).2
  | op_delay ms => (delay ms w).2
  | op_retry action attempts delayPolicy =>
      (retry action attempts delayPolicy w).2
  | op_invoke fn args => (invoke fn args w).2
  | op_turn => turn w
  end.

(** What a [retry] comes to whose next invocation is number [k] with
    [remaining] attempts left, read off the script alone: the state its
    result ends in, and the number of invocations still made. *)
Fixpoint foreseen (action : script) (k remaining : nat) : status * nat :=
  match remaining with
  | 0 => (PENDING, 0)
  | S m =>
      match action k with
      | None => (PENDING, 1)
      | Some (_, Fulfill v) => (FULFILLED v, 1)
      | Some (_, Fail e) =>
          match m with
          | 0 => (REJECTED e, 1)
          | S _ => (fst (foreseen action (S k) m), S (snd (foreseen action (S k) m)))
          end
      end
  end.

(** An update of the world that leaves every settled Future as it is. *)
Definition keeps (F : world → world) : Prop :=
  ∀ w f x, state_of x ≠ PENDING →
           futures w !! f = Some x → futures (F w) !! f = Some x.

(** The numbers of the invocations made for the [retry] whose result is
    [r], in the order they were made. *)
Definition invocations_of (r : fid) (w : world) : list nat :=
  (filter (λ e, e.1 = r) (invocations w)).*2.

(** The Future a registration settles, or settles for. *)
Definition target (k : reaction) : fid :=
  match k with
  | Continuation _ _ d => d
  | Collect _ r | Attempt _ _ _ _ r | Again _ _ _ _ r => r
  end.

(** [x] is one of the first [n] Futures and none of the Futures [P]. *)
Definition foreign (P : list fid) (n : nat) (x : fid) : Prop :=
  x < n ∧ x ∉ P.

(** The Futures [P] are left to one combinator: they exist; what is
    scheduled is [mine] amid registrations that concern other existing
    Futures; so do the registrations held by the other Futures; and a timer
    is for an existing Future, and when for one of [P], one of [ours]. *)
Definition apart (P : list fid) (mine : list (reaction * settlement))
    (ours : list (fid * settlement)) (w : world) : Prop :=
  let n := length (futures w) in
  Forall (λ x, x < n) P ∧
  (∃ q1 q2, queue w = q1 ++ mine ++ q2 ∧
            Forall (λ j, foreign P n (target j.1)) (q1 ++ q2)) ∧
  (∀ f x, futures w !! f = Some x → f ∉ P →
          Forall (λ k, foreign P n (target k)) (continuations x)) ∧
  Forall (λ t, t.2.1 < n ∧ (t.2.1 ∈ P → t.2 ∈ ours)) (timers w).

(** From [w] to [w'] the Futures [P] are as they were, no invocation was
    made for a [retry] whose result is one of them, and the timers set for
    them are still set. *)
Definition undisturbed (P : list fid) (w w' : world) : Prop :=
  (∀ x, x ∈ P → futures w' !! x = futures w !! x) ∧
  (∀ r, r ∈ P → invocations_of r w' = invocations_of r w) ∧
  (∀ t, t ∈ timers w → t.2.1 ∈ P → t ∈ timers w').

(** Every Future that is referred to exists: what holds of the worlds an
    application can reach. *)
Definition wf_world (w : world) : Prop :=
  apart [] [] [] w ∧
  Forall (λ e, e.1 < length (futures w)) (invocations w).

(** The worlds an application can reach: from the empty world, by calls of
    the application and turns of the scheduler, under the policy [p]. *)
Definition reached (p : policy) (ops : list operation) : world :=
  foldl (perform p) empty_world ops.

(** The work a registration stands for when it is scheduled, and when a
    Future still holds it: a bound on the turns it can cause. *)
Definition scheduled_weight (k : reaction) : nat :=
  match k with
  | Attempt _ _ attempts k _ => 6 * (attempts - S k) + 1
  | Again _ _ attempts k _ => 6 * (attempts - S k) + 4
  | _ => 1
  end.

Definition registered_weight (k : reaction) : nat := S (scheduled_weight k).

Definition pending_work (w : world) : nat :=
  sum_list_with (λ j, scheduled_weight j.1) (queue w)
  + sum_list_with (λ x, sum_list_with registered_weight (continuations x))
      (futures w)
  + length (timers w).

(** Where a [retry] stands: the Future of its [k]-th invocation is awaited;
    the registration on that Future is scheduled with the Future's
    settlement; the delay before the [k]-th invocation is awaited; the
    registration on the delay is scheduled; or the [retry] is over. *)
Inductive phase : Type :=
  | Waiting (k : nat) (a : fid)
  | Reacting (k : nat) (o : settlement)
  | Sleeping (k : nat) (d : fid)
  | Waking (k : nat)
  | Over.

(** The invocations before the [k]-th have all failed. *)
Definition failed_before (action : script) (k : nat) : Prop :=
  ∀ i, i < k → ∃ d e, action i = Some (d, Fail e).

(** The world of a [retry] with result [r] that stands at the given phase,
    whatever else goes on in it. *)
Definition at_phase (action : script) (delayPolicy : nat → nat)
    (attempts : nat) (r : fid) (ph : phase) (w : world) : Prop :=
  match ph with
  | Waiting k a =>
      apart [r; a] []
            (match action k with Some (_, o) => [(a, o)] | None => [] end) w ∧
      r ≠ a ∧ k < attempts ∧ failed_before action k ∧
      futures w !! r = Some (MkFuture PENDING []) ∧
      futures w !! a
      = Some (MkFuture PENDING [Attempt action delayPolicy attempts k r]) ∧
      (∀ d o, action k = Some (d, o) → ∃ due, (due, (a, o)) ∈ timers w) ∧
      invocations_of r w = seq 0 (S k)
  | Reacting k o =>
      apart [r] [(Attempt action delayPolicy attempts k r, o)] [] w ∧
      k < attempts ∧ failed_before action k ∧
      (∃ d, action k = Some (d, o)) ∧
      futures w !! r = Some (MkFuture PENDING []) ∧
      invocations_of r w = seq 0 (S k)
  | Sleeping k d =>
      apart [r; d] [] [(d, Fulfill JUndefined)] w ∧
      r ≠ d ∧ k < attempts ∧ failed_before action k ∧
      futures w !! r = Some (MkFuture PENDING []) ∧
      futures w !! d
      = Some (MkFuture PENDING [Again action delayPolicy attempts k r]) ∧
      (∃ due, (due, (d, Fulfill JUndefined)) ∈ timers w) ∧
      invocations_of r w = seq 0 k
  | Waking k =>
      apart [r] [(Again action delayPolicy attempts k r, Fulfill JUndefined)]
            [] w ∧
      k < attempts ∧ failed_before action k ∧
      futures w !! r = Some (MkFuture PENDING []) ∧
      invocations_of r w = seq 0 k
  | Over =>
      apart [r] [] [] w ∧
      state r w = Some (foreseen action 0 attempts).1 ∧
      invocations_of r w = seq 0 (foreseen action 0 attempts).2
  end.

End Future.

(** ** Concrete worlds and callables *)

Module FutureDemo.
Import Future.

(** An action that fails twice and then succeeds, each time after 5 time
    units. *)
Definition flaky : script :=
  λ k, match k with
       | 0 => Some (5, Fail "first")
       | 1 => Some (5, Fail "second")
       | _ => Some (5, Fulfill (JString "ok"))
       end.

(** An action that always fails, with the number of the invocation as the
    reason. *)
Definition hopeless : script :=
  λ k, Some (1, Fail (Number_toString (Z.of_nat k))).

Definition fixedDelay (ms : nat) : nat → nat := λ _, ms.

(** A callable that raises. *)
Definition raising : list jsdata → outcome returned := λ _, Throw "boom".

(** A world with one pending Future on which a continuation is registered. *)
Definition waiting : world :=
  (then_ 0 (Some (λ v, Return v)) None (new_future empty_world).2).2.

End FutureDemo.

(** * More of [Statistics.js] *)

(** ** [addStatistic(stat, keys)] *)

(** What [addStatistic] needs of a [Statistic] beyond the update methods: the
    property [keys], and the method [addStatistic], which receives the
    accumulator given as argument ([None] when that is the receiver itself),
    reads the store, and returns or raises while updating the receiver. *)
Class Mergeable `{Accumulator} : Type := {
  Statistic_keys : Statistic → jsvalue;
  Statistic_addStatistic :
    option Statistic → heap → Statistic → outcome Result * Statistic
}.

Section Merge.

Context `{Mergeable}.

(** [addStatistic(stat, keys)], lines 68 to 70:
    [this.stat(typeof keys !== 'undefined' ? keys : stat.keys)
       .addStatistic(stat)].
    The argument [stat] is a reference to an accumulator object.  A reference
    to no accumulator does not occur in JavaScript; the call raises here. *)
Definition addStatistic (stat_ : loc) (keys : jsvalue) (s : state)
  : outcome Result * state :=
  match objects s !! stat_ with
  | None => (Throw "TypeError", s)
  | Some given =>
      let k := match keys with
               | Imm JUndefined => Statistic_keys given
               | _ => keys
               end in
      let '(st, s1) := stat k s in
      match objects s1 !! st with
      | Some o =>
          let '(r, o') :=
            Statistic_addStatistic
              (if decide (st = stat_) then None else Some given) (store s1) o in
          (r, State (__stats__ s1) (<[st := o']> (objects s1)) (store s1))
      | None => (Throw "TypeError", s1)
      end
  end.

End Merge.

(** The recording accumulator accepts a merge and stays as it is. *)
#[export] Instance Recorder_merges : @Mergeable Recorder := {
  Statistic_keys o := Imm (created_with o);
  Statistic_addStatistic given h o := (Return this, o)
}.

(** An accumulator that keeps a total, for runs in which a merge is seen:
    [add] adds a number to the total, and [addStatistic] adds the total of
    the accumulator given. *)
Record tally : Type := Tallied {
  tally_keys : jsvalue;
  total : Z
}.

Definition Tally : Accumulator := {|
  Statistic := tally;
  Result := receiver;
  Statistic_new k h := Tallied k 0;
  Statistic_call m args h o :=
    match m, args with
    | m_add, Imm (JNumber v) :: _ =>
        (Return this, Tallied (tally_keys o) (total o + v))
    | _, _ => (Return this, o)
    end
|}.

Definition Tally_merges : @Mergeable Tally := {|
  Statistic_keys := tally_keys : @Statistic Tally → jsvalue;
  Statistic_addStatistic given h o :=
    (Return this,
     Tallied (tally_keys o)
             (total o + match given with
                        | Some g => total g
                        | None => total o
                        end))
|}.

(** ** Notions used in the statements *)

Section StatisticsNotions.

Context `{Accumulator}.

(** No accumulator object is stored under two identifiers. *)
Definition table_inj (s : state) : Prop :=
  ∀ id1 id2 st,
    __stats__ s !! id1 = Some st → __stats__ s !! id2 = Some st → id1 = id2.

(** The accumulator object [st] is stored in the table. *)
Definition stored (st : loc) (s : state) : Prop :=
  ∃ id, __stats__ s !! id = Some st.

(** The accumulator objects of [s] other than [st] are the same in [s']. *)
Definition others_kept (st : loc) (s s' : state) : Prop :=
  ∀ st', st' < length (objects s) → st' ≠ st →
         objects s' !! st' = objects s !! st'.

(** What holds of a bundle created in an environment with [n] accumulator
    objects, whatever happened since: the table refers to existing objects,
    to each under one identifier only, every object created since is stored,
    and the table has as many entries as objects were created. *)
Definition bundle_inv (n : nat) (s : state) : Prop :=
  wf s ∧ table_inj s ∧
  (∀ st, n ≤ st → st < length (objects s) → stored st s) ∧
  size (__stats__ s) + n = length (objects s).

End StatisticsNotions.

(** The kinds of keys [__id__] keeps apart by the first character of the
    identifier: an array, a string or object, and any other key.  (A number
    and one of the words [undefined], [null], [true], [false] are of the same
    kind: [JSON.stringify] writes the numbers that are not finite as
    [null].) *)
Inductive kind : Type := KArray | KText | KOther.

Definition kind_of (d : jsdata) : kind :=
  match d with
  | JArray _ => KArray
  | JString _ | JObject _ => KText
  | JUndefined | JNull | JBool _ | JNumber _ => KOther
  end.

Definition kind_of_id (id : string) : kind :=
  match first_char id with
  | None => KText
  | Some c =>
      let n := N_of_ascii c in
      if (n =? 91)%N then KArray
      else if (n =? 34)%N then KText
      else KOther
  end.

(** Whether a text starts as a decimal numeral does: with a digit or with
    the minus sign. *)
Definition numeric_start (id : string) : bool :=
  match first_char id with
  | None => false
  | Some c =>
      let n := N_of_ascii c in
      ((n =? 45) || ((48 <=? n) && (n <=? 57)))%N
  end.

(** The integers a JavaScript number holds exactly, which are the ones
    [Number::toString] writes digit by digit as [Number_toString] does:
    those below [2^53] in absolute value. *)
Definition safe_integer (n : Z) : Prop := (Z.abs n < 2 ^ 53)%Z.

(** A key that is neither an array nor an object, a number being a safe
    integer. *)
Definition primitive (d : jsdata) : Prop :=
  match d with
  | JArray _ | JObject _ => False
  | JNumber n => safe_integer n
  | _ => True
  end.

Definition is_string (d : jsdata) : Prop :=
  match d with
  | JString _ => True
  | _ => False
  end.

(** Reading back one code unit written by [quote_char]: the inverse used to
    show that [QuoteJSONString] loses nothing. *)
Definition hex_value (c : ascii) : N :=
  let n := N_of_ascii c in
  if (n <? 58)%N then (n - 48)%N else (n - 87)%N.

Definition unquote_char (s : string) : option (ascii * string) :=
  match s with
  | EmptyString => None
  | String c r =>
      if (N_of_ascii c =? 34)%N then None
      else if (N_of_ascii c =? 92)%N then
        match r with
        | String e r' =>
            let n := N_of_ascii e in
            if (n =? 98)%N then Some (ascii_of_N 8, r')
            else if (n =? 116)%N then Some (ascii_of_N 9, r')
            else if (n =? 110)%N then Some (ascii_of_N 10, r')
            else if (n =? 102)%N then Some (ascii_of_N 12, r')
            else if (n =? 114)%N then Some (ascii_of_N 13, r')
            else if (n =? 34)%N then Some (ascii_of_N 34, r')
            else if (n =? 92)%N then Some (ascii_of_N 92, r')
            else
              match r' with
              | String _ (String _ (String h1 (String h2 r''))) =>
                  Some (ascii_of_N (16 * hex_value h1 + hex_value h2), r'')
              | _ => None
              end
        | EmptyString => None
        end
      else Some (c, r)
  end.

(** ** An accumulator that refuses what is not a number *)

(** A second instance of the interface, for runs in which a method raises:
    [add] and [addAll] record the call when the value is a number or an
    array, and raise otherwise. *)
Definition Picky : Accumulator := {|
  Statistic := recording;
  Result := receiver;
  Statistic_new k h := Recorded (deref h k) [];
  Statistic_call m args h o :=
    match args with
    | Imm (JNumber _) :: _ | Imm (JArray _) :: _ =>
        (Return this, Recorded (created_with o) (calls o ++ [(m, args)]))
    | _ => (Throw "cannot be added", o)
    end
|}.

(** Concrete inputs. *)
Definition mixed_obj : jsvalue :=
  Imm (JObject [("a", JNumber 1); ("b", JString "x"); ("c", JNumber 3)]).

Definition unsorted_keys : list jsdata :=
  [JNumber 1; JString "1"; JString "b"; JString "a"].

Definition keys_store : heap :=
  [JArray unsorted_keys; JArray (sorted unsorted_keys);
   JArray [JString "y"; JString "x"]; JArray [JString "x"; JString "y"]].

(** A new bundle in an environment that already has an accumulator, which
    the bundle does not store. *)
Definition loose : state := Statistics [Recorded (JString "a") []] [].

(** A new bundle in an environment with an accumulator of total 5 for the
    key ["a"], which the bundle does not store. *)
Definition apart : @state Tally :=
  @Statistics Tally [Tallied (Imm (JString "a")) 5] [].

(** A new bundle of accumulators that refuse what is not a number. *)
Definition picky : @state Picky := @Statistics Picky [] [].

Example stringify_nested :
  JSON_stringify (JArray [JNumber 1; JString "a"; JUndefined;
                          JObject [("k", JNull); ("u", JUndefined)]])
  = Some ("[1," +:+ dquote +:+ "a" +:+ dquote +:+ ",null,{" +:+
          dquote +:+ "k" +:+ dquote +:+ ":null}]").
Proof. reflexivity. Qed.

Example stringify_negative : JSON_stringify (JNumber (-42)) = Some "-42".
Proof. reflexivity. Qed.

Example ToString_array :
  ToString (JArray [JNumber 1; JNull; JArray [JString "x"; JBool true]])
  = "1,,x,true".
Proof. reflexivity. Qed.

Example sorted_strings :
  sorted [JString "b"; JUndefined; JString "a"; JNumber 10; JNumber 9]
  = [JNumber 10; JNumber 9; JString "a"; JString "b"; JUndefined].
Proof. reflexivity. Qed.

Example id_of_array :
  __id__ (Ref 0) [JArray [JString "b"; JString "a"]]
  = (Some ("[" +:+ dquote +:+ "a" +:+ dquote +:+ "," +:+
           dquote +:+ "b" +:+ dquote +:+ "]"),
     [JArray [JString "b"; JString "a"]; JArray [JString "a"; JString "b"]]).
Proof. reflexivity. Qed.

Example id_of_object :
  fst (__id__ (Ref 0) [JObject [("y", JNumber 2); ("x", JNumber 1)]])
  = Some (dquote +:+ "x" +:+ dquote +:+ ":1," +:+
          dquote +:+ "y" +:+ dquote +:+ ":2").
Proof. reflexivity. Qed.

Example id_of_undefined : fst (__id__ (Imm JUndefined) []) = Some "undefined".
Proof. reflexivity. Qed.

(** ** Facts about the default sort order *)

Lemma undefined_dec (x : jsdata) : {x = JUndefined} + {x ≠ JUndefined}.
Proof. destruct x; (by left) || (by right). Defined.

Lemma String_compare_le (s1 s2 : string) :
  String.compare s1 s2 ≠ Gt ↔ String.le s1 s2.
Proof.
  unfold String.le, String.leb.
  destruct (String.compare s1 s2); simpl; split; intros; try done.
Qed.

Lemma SortCompare_antisym (x y : jsdata) :
  SortCompare x y = CompOpp (SortCompare y x).
Proof.
  unfold SortCompare; destruct x, y; lazy beta match;
    try reflexivity; apply String.compare_antisym.
Qed.

Lemma SortCompare_undefined_r (x : jsdata) : sort_le x JUndefined.
Proof. unfold sort_le, SortCompare; destruct x; discriminate. Qed.

Lemma SortCompare_undefined_l (y : jsdata) :
  sort_le JUndefined y → y = JUndefined.
Proof. unfold sort_le, SortCompare; destruct y; congruence. Qed.

Lemma sort_le_defined (x y : jsdata) :
  x ≠ JUndefined → y ≠ JUndefined →
  sort_le x y ↔ String.le (ToString x) (ToString y).
Proof.
  intros Hx Hy. unfold sort_le. rewrite <- String_compare_le.
  unfold SortCompare; destruct x, y; done.
Qed.

#[local] Instance sort_le_total : Total sort_le.
Proof.
  intros x y. unfold sort_le. rewrite (SortCompare_antisym y x).
  destruct (SortCompare x y); simpl; auto.
Qed.

#[local] Instance sort_le_trans : Transitive sort_le.
Proof.
  intros x y z Hxy Hyz.
  destruct (undefined_dec z) as [->|Hz].
  { apply SortCompare_undefined_r. }
  destruct (undefined_dec y) as [->|Hy].
  { apply SortCompare_undefined_l in Hyz. done. }
  destruct (undefined_dec x) as [->|Hx].
  { apply SortCompare_undefined_l in Hxy. done. }
  rewrite sort_le_defined in * by done.
  by etrans.
Qed.

Lemma sort_insert_Permutation (x : jsdata) (l : list jsdata) :
  sort_insert x l ≡ₚ x :: l.
Proof.
  induction l as [|y l IH]; simpl; [done|].
  destruct (SortCompare x y); try done.
  rewrite IH. apply Permutation_swap.
Qed.

Lemma sorted_Permutation (l : list jsdata) : sorted l ≡ₚ l.
Proof.
  induction l as [|x l IH]; simpl; [done|].
  by rewrite sort_insert_Permutation, IH.
Qed.

Lemma sort_insert_Sorted (x : jsdata) (l : list jsdata) :
  StronglySorted sort_le l → StronglySorted sort_le (sort_insert x l).
Proof.
  induction 1 as [|y l Hl IH Hy]; simpl.
  { repeat constructor. }
  destruct (SortCompare x y) eqn:Hc.
  - constructor; [by constructor|].
    assert (sort_le x y) as Hxy by (unfold sort_le; congruence).
    constructor; [done|]. eapply Forall_impl; [exact Hy|].
    intros z Hz. by etrans.
  - constructor; [by constructor|].
    assert (sort_le x y) as Hxy by (unfold sort_le; congruence).
    constructor; [done|]. eapply Forall_impl; [exact Hy|].
    intros z Hz. by etrans.
  - constructor; [done|].
    rewrite sort_insert_Permutation. constructor; [|done].
    unfold sort_le. rewrite SortCompare_antisym, Hc. discriminate.
Qed.

Lemma sorted_Sorted (l : list jsdata) : StronglySorted sort_le (sorted l).
Proof.
  induction l as [|x l IH]; simpl; [constructor|].
  by apply sort_insert_Sorted.
Qed.

(** Two arrangements of the same members sort to the same array as soon as
    members that the comparison cannot tell apart are equal. *)
Lemma sorted_unique (l1 l2 : list jsdata) :
  l1 ≡ₚ l2 → separated l1 → sorted l1 = sorted l2.
Proof.
  intros Hp Hinj.
  apply (StronglySorted_unique_strong sort_le);
    [|apply sorted_Sorted|apply sorted_Sorted|by rewrite !sorted_Permutation].
  intros x y Hx Hy Hxy Hyx.
  rewrite sorted_Permutation in Hx. rewrite sorted_Permutation, <- Hp in Hy.
  apply Hinj; [done..|].
  unfold sort_le in *. rewrite SortCompare_antisym in Hyx.
  destruct (SortCompare x y); simpl in *; congruence.
Qed.

(** ** Facts about the store and [__id__] *)

Lemma foldl_pointwise {A B} (f g : A → B → A) (l : list B) (a : A) :
  (∀ a b, f a b = g a b) → foldl f a l = foldl g a l.
Proof.
  intros Hfg. revert a. induction l as [|b l IH]; intros a; simpl; [done|].
  by rewrite Hfg, IH.
Qed.

Lemma lookup_alloc (h : heap) (d : jsdata) : (h ++ [d]) !! length h = Some d.
Proof. by apply list_lookup_middle. Qed.

Lemma insert_alloc (h : heap) (d d' : jsdata) :
  <[length h := d']> (h ++ [d]) = h ++ [d'].
Proof.
  rewrite insert_app_r_alt by lia. by rewrite Nat.sub_diag.
Qed.

Lemma Array_join_strings (sep : string) {A} (g : A → string) (l : list A) :
  Array_join sep (map (λ n, JString (g n)) l) = join sep (map g l).
Proof. unfold Array_join. by rewrite map_map. Qed.

(** What [__id__] computes, branch by branch. *)
Lemma id_array (keys : jsvalue) (h : heap) (elems : list jsdata) :
  deref h keys = JArray elems →
  __id__ keys h
  = (JSON_stringify (JArray (sorted elems)), h ++ [JArray (sorted elems)]).
Proof.
  intros Hk. unfold __id__. rewrite Hk.
  unfold Array_slice, alloc, Array_sort, Array_elems.
  rewrite lookup_alloc, insert_alloc, lookup_alloc. done.
Qed.

Lemma id_object (keys : jsvalue) (h : heap) (props : list (string * jsdata)) :
  deref h keys = JObject props →
  __id__ keys h
  = (Some (join "," (map (member_text props) (sorted (names props)))),
     h ++ [JArray (sorted (names props));
           JArray (map (λ n, JString (member_text props n))
                       (sorted (names props)))]).
Proof.
  intros Hk. unfold __id__. rewrite Hk.
  unfold Object_keys, alloc, Array_sort, Array_map, Array_elems, alloc.
  rewrite lookup_alloc, insert_alloc, lookup_alloc.
  rewrite length_app, Nat.add_1_r.
  replace (S (length h)) with (length (h ++ [JArray (sorted (names props))]))
    by (rewrite length_app; simpl; lia).
  rewrite lookup_alloc, <- app_assoc. simpl.
  f_equal. f_equal. apply (Array_join_strings "," (member_text props)).
Qed.

Lemma id_primitive (keys : jsvalue) (h : heap) :
  Array_isArray (deref h keys) = false →
  (∀ props, deref h keys ≠ JObject props) →
  __id__ keys h = (Some (str (JSON_stringify (deref h keys)) +:+ ""), h).
Proof.
  intros Ha Ho. unfold __id__.
  destruct (deref h keys); try done. by destruct (Ho props).
Qed.

(** [__id__] only ever adds cells to the store. *)
Lemma id_extends_store (keys : jsvalue) (h : heap) :
  ∃ fresh, (__id__ keys h).2 = h ++ fresh.
Proof.
  destruct (deref h keys) as [| |b|n|s|elems|props] eqn:Hk.
  6: { rewrite (id_array _ _ _ Hk). by eexists. }
  6: { rewrite (id_object _ _ _ Hk). by eexists. }
  all: exists []; rewrite app_nil_r, id_primitive; rewrite ?Hk; done.
Qed.

Lemma deref_extend (h fresh : heap) (v : jsvalue) :
  deref h v ≠ JUndefined → deref (h ++ fresh) v = deref h v.
Proof.
  destruct v as [d|l]; unfold deref; [done|].
  destruct (h !! l) as [d|] eqn:Hl; [|done].
  by rewrite (lookup_app_l_Some _ _ _ _ Hl).
Qed.

Lemma deref_valid (h fresh : heap) (v : jsvalue) :
  valid h v → deref (h ++ fresh) v = deref h v.
Proof.
  destruct v as [d|l]; unfold deref, valid; [done|]. intros Hl.
  by rewrite lookup_app_l.
Qed.

Lemma valid_extend (h fresh : heap) (v : jsvalue) :
  valid h v → valid (h ++ fresh) v.
Proof. destruct v; simpl; [done|]. rewrite length_app. lia. Qed.

Lemma deref_defined_valid (h : heap) (v : jsvalue) :
  deref h v ≠ JUndefined → valid h v.
Proof.
  destruct v as [d|l]; simpl; [done|].
  destruct (h !! l) eqn:Hl; simpl; [|done].
  intros _. by eapply lookup_lt_Some.
Qed.

(** The identifier depends on the data the argument stands for only. *)
Lemma id_deref (k1 k2 : jsvalue) (h1 h2 : heap) :
  deref h1 k1 = deref h2 k2 → (__id__ k1 h1).1 = (__id__ k2 h2).1.
Proof.
  intros Hd. destruct (deref h2 k2) as [| |b|n|s|elems|props] eqn:Hk.
  6: { by rewrite (id_array _ _ _ Hd), (id_array _ _ _ Hk). }
  6: { by rewrite (id_object _ _ _ Hd), (id_object _ _ _ Hk). }
  all: rewrite !id_primitive; rewrite ?Hd, ?Hk; done.
Qed.

Lemma id_extend (k : jsvalue) (h fresh : heap) :
  valid h k → (__id__ k (h ++ fresh)).1 = (__id__ k h).1.
Proof. intros Hv. apply id_deref. by apply deref_valid. Qed.

(** *** Objects: the enumeration order does not matter *)

Lemma Get_elem_of (props : list (string * jsdata)) (k : string) (v : jsdata) :
  NoDup props.*1 → (k, v) ∈ props → Get props k = v.
Proof.
  induction props as [|[k' v'] props IH]; simpl; intros Hnd Hin.
  { by apply elem_of_nil in Hin. }
  apply NoDup_cons in Hnd as [Hk' Hnd].
  apply elem_of_cons in Hin as [Heq|Hin].
  - inversion Heq; subst. by rewrite String.eqb_refl.
  - destruct (String.eqb_spec k' k) as [->|Hne]; [|by apply IH].
    destruct Hk'. apply list_elem_of_fmap. by exists (k, v).
Qed.

Lemma Get_Permutation (p1 p2 : list (string * jsdata)) (k : string) :
  p1 ≡ₚ p2 → NoDup p1.*1 → k ∈ p1.*1 → Get p1 k = Get p2 k.
Proof.
  intros Hp Hnd Hk.
  apply list_elem_of_fmap in Hk as [[k' v] [-> Hin]]. simpl.
  rewrite (Get_elem_of p1 k' v) by done.
  symmetry. apply Get_elem_of.
  - by rewrite <- Hp.
  - by rewrite <- Hp.
Qed.

Lemma names_separated (props : list (string * jsdata)) : separated (names props).
Proof.
  intros x y Hx Hy. unfold names in *.
  apply list_elem_of_fmap in Hx as [[kx vx] [-> _]].
  apply list_elem_of_fmap in Hy as [[ky vy] [-> _]].
  unfold SortCompare; simpl. intros Hc.
  by apply String.compare_eq_iff in Hc as ->.
Qed.

Lemma id_object_Permutation (k1 k2 : jsvalue) (h : heap)
    (p1 p2 : list (string * jsdata)) :
  deref h k1 = JObject p1 → deref h k2 = JObject p2 →
  p1 ≡ₚ p2 → NoDup p1.*1 →
  (__id__ k1 h).1 = (__id__ k2 h).1.
Proof.
  intros H1 H2 Hp Hnd.
  rewrite (id_object _ _ _ H1), (id_object _ _ _ H2). simpl.
  assert (sorted (names p1) = sorted (names p2)) as Hs.
  { apply sorted_unique; [|apply names_separated].
    unfold names. by apply Permutation_map. }
  rewrite <- Hs. do 2 f_equal.
  apply map_ext_in. intros n Hn.
  apply list_elem_of_In in Hn. rewrite sorted_Permutation in Hn.
  unfold names in Hn. apply list_elem_of_fmap in Hn as [[k v] [-> Hin]].
  unfold member_text. simpl. do 2 f_equal.
  rewrite (Get_Permutation p1 p2 k); [done..|].
  apply list_elem_of_fmap. by exists (k, v).
Qed.

Lemma id_array_Permutation (k1 k2 : jsvalue) (h : heap)
    (a1 a2 : list jsdata) :
  deref h k1 = JArray a1 → deref h k2 = JArray a2 →
  a1 ≡ₚ a2 → separated a1 →
  (__id__ k1 h).1 = (__id__ k2 h).1.
Proof.
  intros H1 H2 Hp Hsep.
  rewrite (id_array _ _ _ H1), (id_array _ _ _ H2). simpl.
  by rewrite (sorted_unique a1 a2).
Qed.

(** *** [__id__] leaves its argument alone *)

(** C10.  [__id__] never mutates its argument: the store after the call is
    the store before it followed by the arrays the call created (the sorted
    copy, the name and text arrays), so every array and object that existed
    keeps its members, their order and its properties; in particular the
    argument stands for the same data after the call as before. *)
Theorem id_never_mutates (keys : jsvalue) (h : heap) :
  (∃ fresh, (__id__ keys h).2 = h ++ fresh) ∧
  deref (__id__ keys h).2 keys = deref h keys.
Proof.
  destruct (id_extends_store keys h) as [fresh Hf].
  split; [by exists fresh|].
  destruct (undefined_dec (deref h keys)) as [Hu|Hd].
  - rewrite id_primitive; rewrite ?Hu; done.
  - rewrite Hf. by apply deref_extend.
Qed.

(** The same fact cell by cell. *)
Lemma id_preserves_cells (keys : jsvalue) (h : heap) (l : loc) (d : jsdata) :
  h !! l = Some d → (__id__ keys h).2 !! l = Some d.
Proof.
  intros Hl. destruct (id_extends_store keys h) as [fresh ->].
  by apply lookup_app_l_Some.
Qed.

(** The array the caller passed is still unsorted after the call; the sorted
    copy is a new cell. *)
Example id_sorts_a_copy :
  (__id__ (Ref 0) [JArray [JString "b"; JString "a"]]).2
  = [JArray [JString "b"; JString "a"]; JArray [JString "a"; JString "b"]].
Proof. reflexivity. Qed.

(** *** Arrangements that [__id__] tells apart *)

(** C2, as stated, fails: the number 1 and the string "1" have the same
    [ToString], so [sort] leaves either arrangement of the two as it is, and
    [JSON.stringify] writes them differently. *)
Lemma id_tells_arrangements_apart :
  let a1 := [JNumber 1; JString "1"] in
  let a2 := [JString "1"; JNumber 1] in
  let h := [JArray a1; JArray a2] in
  a1 ≡ₚ a2 ∧
  (__id__ (Ref 0) h).1 = Some ("[1," +:+ dquote +:+ "1" +:+ dquote +:+ "]") ∧
  (__id__ (Ref 1) h).1 = Some ("[" +:+ dquote +:+ "1" +:+ dquote +:+ ",1]") ∧
  (__id__ (Ref 0) h).1 ≠ (__id__ (Ref 1) h).1.
Proof.
  repeat split.
  - apply Permutation_swap.
  - discriminate.
Qed.

(** *** Identifiers are never names of inherited properties *)

Lemma first_char_app (s1 s2 : string) (c : ascii) :
  first_char s1 = Some c → first_char (s1 +:+ s2) = Some c.
Proof. by destruct s1. Qed.

Lemma first_char_join (sep x : string) (l : list string) (c : ascii) :
  first_char x = Some c → first_char (join sep (x :: l)) = Some c.
Proof.
  intros Hx. unfold join. simpl. destruct l; [done|].
  by apply first_char_app.
Qed.

Lemma app_empty_r (s : string) : s +:+ "" = s.
Proof.
  induction s as [|c s IH]; [done|].
  change (String c (s +:+ "") = String c s). by f_equal.
Qed.

Lemma Number_toString_start (n : Z) :
  ∃ c, first_char (Number_toString n) = Some c ∧ id_start c = true.
Proof.
  unfold Number_toString, NilZero.string_of_int.
  destruct (Z.to_int n) as [d|d]; [|by eexists].
  destruct d; by eexists.
Qed.

Lemma id_start_shaped (s : string) (c : ascii) :
  first_char s = Some c → id_start c = true → id_shaped s = true.
Proof. intros Hs Hc. unfold id_shaped. by rewrite Hs, Hc. Qed.

Lemma sorted_names (props : list (string * jsdata)) (n : jsdata) :
  n ∈ sorted (names props) → ∃ k, n = JString k.
Proof.
  rewrite sorted_Permutation. unfold names.
  intros Hn. apply list_elem_of_fmap in Hn as [[k v] [-> _]]. by exists k.
Qed.

Lemma id_shape (keys : jsvalue) (h : heap) :
  id_shaped (str (__id__ keys h).1) = true.
Proof.
  destruct (deref h keys) as [| |b|n|s|elems|props] eqn:Hk.
  6: { by rewrite (id_array _ _ _ Hk). }
  6: { rewrite (id_object _ _ _ Hk). simpl.
       destruct (sorted (names props)) as [|n l] eqn:Hs; [done|].
       destruct (sorted_names props n) as [k ->]; [rewrite Hs; by left|].
       cbn [map]. eapply id_start_shaped.
       - apply first_char_join. reflexivity.
       - reflexivity. }
  all: rewrite id_primitive by (rewrite ?Hk; done); rewrite Hk;
    cbn [fst str]; rewrite app_empty_r; try done.
  - by destruct b.
  - destruct (Number_toString_start n) as (c & Hc & Hs).
    by eapply id_start_shaped.
Qed.

(** X1.  The identifier [stat] uses is the name of no inherited property, so the
    property read [this.__stats__[id]] sees the own properties of the table
    only. *)
Lemma id_not_inherited (keys : jsvalue) (h : heap) :
  str (__id__ keys h).1 ∉ Object_prototype.
Proof.
  intros Hin. pose proof (id_shape keys h) as Hs.
  assert (Forall (λ n, id_shaped n = false) Object_prototype) as Hp
    by (by repeat constructor).
  rewrite Forall_forall in Hp. rewrite (Hp _ Hin) in Hs. done.
Qed.

(** ** Facts about the [Statistics] bundle *)

Section StatisticsFacts.

Context `{Accumulator}.

Implicit Types (s : state) (k keys : jsvalue).

Lemma stat_unfold keys s :
  stat keys s
  = match __stats__ s !! entry keys s with
    | Some st =>
        (st, State (__stats__ s) (objects s) (__id__ keys (store s)).2)
    | None =>
        (length (objects s),
         State (<[entry keys s := length (objects s)]> (__stats__ s))
               (objects s ++
                  [Statistic_new keys (__id__ keys (store s)).2])
               (__id__ keys (store s)).2)
    end.
Proof.
  unfold stat, entry. by destruct (__id__ keys (store s)).
Qed.

Lemma stat_store keys s : store (stat keys s).2 = (__id__ keys (store s)).2.
Proof. rewrite stat_unfold. by destruct (__stats__ s !! _). Qed.

Lemma stat_lookup keys s :
  __stats__ (stat keys s).2 !! entry keys s = Some (stat keys s).1.
Proof.
  rewrite stat_unfold. destruct (__stats__ s !! _) eqn:He; simpl; [done|].
  by rewrite lookup_insert_eq.
Qed.

Lemma stat_preserves_entries keys s id st :
  __stats__ s !! id = Some st → __stats__ (stat keys s).2 !! id = Some st.
Proof.
  intros Hid. rewrite stat_unfold.
  destruct (__stats__ s !! entry keys s) eqn:He; simpl; [done|].
  rewrite lookup_insert_ne; [done|]. congruence.
Qed.

Lemma call_table m st args s :
  __stats__ (call m st args s).2 = __stats__ s.
Proof.
  unfold call. destruct (objects s !! st); [|done].
  by destruct (Statistic_call _ _ _ _).
Qed.

Lemma call_store m st args s : store (call m st args s).2 = store s.
Proof.
  unfold call. destruct (objects s !! st); [|done].
  by destruct (Statistic_call _ _ _ _).
Qed.

Lemma call_objects_length m st args s :
  length (objects (call m st args s).2) = length (objects s).
Proof.
  unfold call. destruct (objects s !! st); [|done].
  destruct (Statistic_call _ _ _ _). simpl. by rewrite length_insert.
Qed.

Lemma step_preserves_entries s s' id st :
  step s s' → __stats__ s !! id = Some st → __stats__ s' !! id = Some st.
Proof.
  intros [k s0|m o args s0] Hid.
  - by apply stat_preserves_entries.
  - by rewrite call_table.
Qed.

Lemma step_extends_store s s' :
  step s s' → ∃ fresh, store s' = store s ++ fresh.
Proof.
  intros [k s0|m o args s0].
  - rewrite stat_store. apply id_extends_store.
  - exists []. by rewrite call_store, app_nil_r.
Qed.

Lemma steps_preserve_entries s s' id st :
  rtc step s s' → __stats__ s !! id = Some st → __stats__ s' !! id = Some st.
Proof. induction 1; eauto using step_preserves_entries. Qed.

Lemma steps_extend_store s s' :
  rtc step s s' → ∃ fresh, store s' = store s ++ fresh.
Proof.
  induction 1 as [s|s s1 s2 H1 _ [f2 IH]].
  - exists []. by rewrite app_nil_r.
  - destruct (step_extends_store _ _ H1) as [f1 Hf1].
    exists (f1 ++ f2). by rewrite IH, Hf1, app_assoc.
Qed.

(** *** Well-formed bundles *)

Lemma wf_Statistics objs h : wf (Statistics objs h).
Proof. apply map_Forall_empty. Qed.

Lemma stat_wf keys s : wf s → wf (stat keys s).2.
Proof.
  unfold wf. intros Hwf. rewrite stat_unfold.
  destruct (__stats__ s !! entry keys s) eqn:He; simpl; [done|].
  apply map_Forall_insert_2.
  - rewrite length_app. simpl. lia.
  - eapply map_Forall_impl; [exact Hwf|]. simpl. intros _ st Hst.
    rewrite length_app. lia.
Qed.

Lemma stat_ref keys s :
  wf s → (stat keys s).1 < length (objects (stat keys s).2).
Proof.
  intros Hwf. apply (stat_wf keys) in Hwf.
  exact (Hwf _ _ (stat_lookup keys s)).
Qed.

Lemma call_wf m st args s : wf s → wf (call m st args s).2.
Proof.
  unfold wf. by rewrite call_table, call_objects_length.
Qed.

(** *** [stat]: creation, then reuse *)

Lemma stat_fresh keys s :
  __stats__ s !! entry keys s = None →
  stat keys s
  = (length (objects s),
     State (<[entry keys s := length (objects s)]> (__stats__ s))
           (objects s ++ [Statistic_new keys (__id__ keys (store s)).2])
           (__id__ keys (store s)).2).
Proof. intros He. by rewrite stat_unfold, He. Qed.

Lemma stat_existing keys s st :
  __stats__ s !! entry keys s = Some st →
  stat keys s
  = (st, State (__stats__ s) (objects s) (__id__ keys (store s)).2).
Proof. intros He. by rewrite stat_unfold, He. Qed.

(** C4.  The first call of [stat] for an identifier creates a [Statistic]
    and stores it in the table under that identifier; every later call whose
    keys have the same identifier, whatever lookups and method calls
    happened in between, returns that very object and leaves the table and
    the accumulator objects as they are. *)
Theorem stat_creates_once keys s :
  __stats__ s !! entry keys s = None →
  ∃ st s1,
    stat keys s = (st, s1) ∧
    st = length (objects s) ∧
    objects s1 = objects s ++ [Statistic_new keys (store s1)] ∧
    __stats__ s1 = <[entry keys s := st]> (__stats__ s) ∧
    ∀ s2 keys',
      rtc step s1 s2 → entry keys' s2 = entry keys s →
      (stat keys' s2).1 = st ∧
      __stats__ (stat keys' s2).2 = __stats__ s2 ∧
      objects (stat keys' s2).2 = objects s2.
Proof.
  intros He. eexists _, _. split; [by apply stat_fresh|].
  simpl. do 3 (split; [done|]).
  intros s2 keys' Hsteps Hid.
  assert (__stats__ s2 !! entry keys' s2 = Some (length (objects s)))
    as Hs2.
  { rewrite Hid. eapply steps_preserve_entries; [exact Hsteps|].
    simpl. apply lookup_insert_eq. }
  by rewrite (stat_existing _ _ _ Hs2).
Qed.

(** *** The update shortcuts *)

(** Each shortcut but [gainAll] forwards to the method of its own name. *)
Lemma addAll_forwards keys values data s :
  addAll keys values data s
  = call m_addAll (stat keys s).1 [values; data] (stat keys s).2.
Proof. unfold addAll. by destruct (stat keys s). Qed.

Lemma add_forwards keys value data s :
  add keys value data s
  = call m_add (stat keys s).1 [value; data] (stat keys s).2.
Proof. unfold add. by destruct (stat keys s). Qed.

Lemma gain_forwards keys value factor data s :
  gain keys value factor data s
  = call m_gain (stat keys s).1 [value; factor; data] (stat keys s).2.
Proof. unfold gain. by destruct (stat keys s). Qed.

Lemma startTime_forwards keys timestamp s :
  startTime keys timestamp s
  = call m_startTime (stat keys s).1 [timestamp] (stat keys s).2.
Proof. unfold startTime. by destruct (stat keys s). Qed.

Lemma addTime_forwards keys data s :
  addTime keys data s = call m_addTime (stat keys s).1 [data] (stat keys s).2.
Proof. unfold addTime. by destruct (stat keys s). Qed.

Lemma addTick_forwards keys data s :
  addTick keys data s = call m_addTick (stat keys s).1 [data] (stat keys s).2.
Proof. unfold addTick. by destruct (stat keys s). Qed.

(** C8.  [gainAll] does not use [factor]: it is [addAll] on the same keys,
    values and data, both being [stat(keys).addAll(values, data)]. *)
Theorem gainAll_is_addAll keys values factor data s :
  gainAll keys values factor data s = addAll keys values data s ∧
  gainAll keys values factor data s
  = call m_addAll (stat keys s).1 [values; data] (stat keys s).2 ∧
  addAll keys values data s
  = call m_addAll (stat keys s).1 [values; data] (stat keys s).2.
Proof.
  split; [reflexivity|]. split; apply addAll_forwards.
Qed.

(** Every update of the bundle is made of lookups and method calls. *)
Lemma forward_steps m keys args s :
  rtc step s (call m (stat keys s).1 args (stat keys s).2).2.
Proof.
  eapply rtc_l; [apply step_stat|]. apply rtc_once, step_call.
Qed.

Lemma add_steps keys value data s : rtc step s (add keys value data s).2.
Proof. rewrite add_forwards. apply forward_steps. Qed.

Lemma addAll_steps keys values data s :
  rtc step s (addAll keys values data s).2.
Proof. rewrite addAll_forwards. apply forward_steps. Qed.

Lemma addObject_loop_steps members data s :
  rtc step s (addObject_loop members data s).2.
Proof.
  revert s. induction members as [|[name member] rest IH]; intros s; [done|].
  simpl.
  assert (rtc step s (addObject_member name member data s).2) as Hm.
  { unfold addObject_member. destruct (Array_isArray member).
    - apply addAll_steps.
    - apply add_steps. }
  destruct (addObject_member name member data s) as [[r|e] s1]; [|done].
  etrans; [exact Hm|apply IH].
Qed.

Lemma addObject_steps obj data s : rtc step s (addObject obj data s).2.
Proof.
  unfold addObject. destruct (raiseIf _ _); [|done].
  pose proof (addObject_loop_steps (enumerate (deref (store s) obj)) data s)
    as Hl.
  by destruct (addObject_loop _ _ _) as [[r|e] s'].
Qed.

(** *** Normalised key-sets *)

(** C2, amended.  The identifier depends on the key-set only: two arrays
    with the same members in any arrangement, in which members with the
    same string conversion are equal, and two objects with the same
    properties in any enumeration order, get the same identifier; hence
    [stat] on the second resolves to the table entry of the first. *)
Theorem id_normalized k1 k2 s :
  same_key_set (store s) k1 k2 →
  (__id__ k1 (store s)).1 = (__id__ k2 (store s)).1 ∧
  (stat k2 (stat k1 s).2).1 = (stat k1 s).1.
Proof.
  intros Hsame.
  assert ((__id__ k1 (store s)).1 = (__id__ k2 (store s)).1) as Hid.
  { destruct Hsame as [a1 a2 H1 H2 Hp Hsep|p1 p2 H1 H2 Hp Hnd].
    - by eapply id_array_Permutation.
    - by eapply id_object_Permutation. }
  split; [done|].
  assert (valid (store s) k2) as Hv.
  { apply deref_defined_valid.
    destruct Hsame as [? ? _ -> _ _|? ? _ -> _ _]; done. }
  assert (entry k2 (stat k1 s).2 = entry k1 s) as He.
  { unfold entry. rewrite stat_store.
    destruct (id_extends_store k1 (store s)) as [fresh ->].
    by rewrite id_extend, Hid. }
  pose proof (stat_lookup k1 s) as Hl. rewrite <- He in Hl.
  by rewrite (stat_existing _ _ _ Hl).
Qed.

(** *** [addObject] *)

Lemma call_returns m st args s :
  accepts_additions → m = m_add ∨ m = m_addAll →
  st < length (objects s) →
  is_Return (call m st args s).1.
Proof.
  intros Hacc Hm Hst. unfold call.
  destruct (lookup_lt_is_Some_2 _ _ Hst) as [o ->].
  specialize (Hacc m args (store s) o Hm).
  by destruct (Statistic_call _ _ _ _).
Qed.

Lemma addObject_member_returns name member data s :
  accepts_additions → wf s →
  is_Return (addObject_member name member data s).1 ∧
  wf (addObject_member name member data s).2.
Proof.
  intros Hacc Hwf. unfold addObject_member.
  destruct (Array_isArray member).
  - rewrite addAll_forwards.
    split; [apply call_returns; auto using stat_ref|].
    by apply call_wf, stat_wf.
  - rewrite add_forwards.
    split; [apply call_returns; auto using stat_ref|].
    by apply call_wf, stat_wf.
Qed.

Lemma addObject_loop_returns members data s :
  accepts_additions → wf s →
  addObject_loop members data s
  = (Return (),
     foldl (λ s' nm, (addObject_member nm.1 nm.2 data s').2) s members).
Proof.
  intros Hacc. revert s.
  induction members as [|[name member] rest IH]; intros s Hwf; [done|].
  simpl.
  destruct (addObject_member_returns name member data s Hacc Hwf)
    as [Hr Hwf'].
  destruct (addObject_member name member data s) as [[r|e] s1];
    [|done].
  by apply IH.
Qed.




End StatisticsFacts.

(** ** The bundle at work, with recording accumulators *)

Lemma stat_creates_once_witness :
  ∃ st s1,
    stat k_a demo = (st, s1) ∧
    st = 0 ∧
    objects s1 = [Statistic_new k_a (store s1)] ∧
    __stats__ s1 = <[entry k_a demo := st]> ∅ ∧
    ∀ s2 keys',
      rtc step s1 s2 → entry keys' s2 = entry k_a demo →
      (stat keys' s2).1 = st ∧
      __stats__ (stat keys' s2).2 = __stats__ s2 ∧
      objects (stat keys' s2).2 = objects s2.
Proof. apply (stat_creates_once k_a demo). reflexivity. Defined.

Example stat_twice :
  (stat k_a demo).1 = 0 ∧
  (stat k_a (stat k_a demo).2).1 = 0 ∧
  length (objects (stat k_a (stat k_a demo).2).2) = 1 ∧
  (stat (Imm (JString "b")) (stat k_a demo).2).1 = 1.
Proof. vm_compute. done. Qed.

Lemma demo_separated :
  separated [JString "y"; JString "x"; JNumber 7].
Proof.
  intros x y Hx Hy.
  repeat (apply elem_of_cons in Hx as [->|Hx]);
    try (by apply elem_of_nil in Hx);
    repeat (apply elem_of_cons in Hy as [->|Hy]);
    try (by apply elem_of_nil in Hy);
    vm_compute; congruence.
Defined.

Lemma id_normalized_witness :
  ((__id__ (Ref 0) demo_store).1 = (__id__ (Ref 1) demo_store).1 ∧
   (stat (Ref 1) (stat (Ref 0) demo).2).1 = (stat (Ref 0) demo).1) ∧
  ((__id__ (Ref 2) demo_store).1 = (__id__ (Ref 3) demo_store).1 ∧
   (stat (Ref 3) (stat (Ref 2) demo).2).1 = (stat (Ref 2) demo).1).
Proof.
  split.
  - apply (id_normalized (Ref 0) (Ref 1) demo).
    eapply same_array; [reflexivity|reflexivity| |exact demo_separated].
    symmetry.
    exact (Permutation_cons_append [JString "y"; JString "x"] (JNumber 7)).
  - apply (id_normalized (Ref 2) (Ref 3) demo).
    eapply same_object; [reflexivity|reflexivity|apply Permutation_swap|].
    compute_done.
Defined.

(** The two arrangements of the number 1 and the string "1" get an entry
    each. *)
Example arrangements_get_two_entries :
  let h := [JArray [JNumber 1; JString "1"]; JArray [JString "1"; JNumber 1]] in
  let s := Statistics [] h in
  (stat (Ref 0) s).1 = 0 ∧ (stat (Ref 1) (stat (Ref 0) s).2).1 = 1.
Proof. vm_compute. done. Qed.

(** C3.  [gainAll] does not forward to the method of its own name, unlike
    the other shortcuts and against its own documentation: the accumulator
    receives [addAll(values, data)], and [factor] is lost. *)
Lemma gainAll_reaches_addAll :
  let values := Imm (JArray [JNumber 1; JNumber 2]) in
  let factor := Imm (JNumber 3) in
  let data := Imm JUndefined in
  let s := (gainAll k_a values factor data demo).2 in
  calls <$> objects s = [[(m_addAll, [values; data])]] ∧
  calls <$> objects s ≠ [[(m_gainAll, [values; factor; data])]].
Proof. vm_compute. split; [reflexivity|discriminate]. Qed.

Example gain_reaches_gain :
  let value := Imm (JNumber 1) in
  let factor := Imm (JNumber 3) in
  let data := Imm JUndefined in
  calls <$> objects (gain k_a value factor data demo).2
  = [[(m_gain, [value; factor; data])]].
Proof. vm_compute. reflexivity. Qed.




Example addObject_falsy_messages :
  fst (addObject (Imm JUndefined) (Imm JNull) demo)
  = Throw "Cannot add object undefined." ∧
  fst (addObject (Imm (JNumber 0)) (Imm JNull) demo)
  = Throw "Cannot add object 0." ∧
  fst (addObject (Imm (JBool false)) (Imm JNull) demo)
  = Throw "Cannot add object false." ∧
  fst (addObject (Imm (JString "")) (Imm JNull) demo)
  = Throw ("Cannot add object " +:+ dquote +:+ dquote +:+ ".").
Proof. vm_compute. done. Qed.

(** A string is truthy unless empty, and its characters are its members. *)
Example addObject_string :
  calls <$> objects (addObject (Imm (JString "hi")) (Imm JNull) demo).2
  = [[(m_add, [Imm (JString "h"); Imm JNull])];
     [(m_add, [Imm (JString "i"); Imm JNull])]].
Proof. vm_compute. reflexivity. Qed.

(** ** Facts about the asynchronous core *)

Module FutureFacts.
Import Future.

Lemma lookup_new (fs : list future) (x : future) :
  (fs ++ [x]) !! length fs = Some x.
Proof. by apply list_lookup_middle. Qed.

Lemma settle_settled (f : fid) (o : settlement) (w : world) (x : future) :
  futures w !! f = Some x → state_of x ≠ PENDING → settle f o w = w.
Proof.
  intros Hf Hs. unfold settle. rewrite Hf. destruct x as [[] ks]; done.
Qed.

Lemma settle_pending (f : fid) (o : settlement) (w : world)
    (ks : list reaction) :
  futures w !! f = Some (MkFuture PENDING ks) →
  settle f o w
  = set_queue (queue w ++ map (λ k, (k, o)) ks)
              (set_futures (<[f := MkFuture (settled o) []]> (futures w)) w).
Proof. intros Hf. unfold settle. by rewrite Hf. Qed.

Lemma settled_not_pending (o : settlement) : settled o ≠ PENDING.
Proof. by destruct o. Qed.

(** *** Settled Futures stay as they are *)

Lemma keeps_id : keeps (λ w, w).
Proof. by intros w f x. Qed.

Lemma keeps_compose (F G : world → world) :
  keeps F → keeps G → keeps (λ w, G (F w)).
Proof. intros HF HG w f x Hx Hf. by apply HG, HF. Qed.

Lemma keeps_same_futures (F : world → world) :
  (∀ w, futures (F w) = futures w) → keeps F.
Proof. intros HF w f x _. by rewrite HF. Qed.

Lemma keeps_settle (g : fid) (o : settlement) : keeps (settle g o).
Proof.
  intros w f x Hx Hf. unfold settle.
  destruct (futures w !! g) as [[[] ks]|] eqn:Hg; try done. simpl.
  rewrite list_lookup_insert_ne; [done|].
  intros ->. rewrite Hf in Hg. by inversion Hg; subst.
Qed.

Lemma keeps_register (g : fid) (k : reaction) : keeps (register g k).
Proof.
  intros w f x Hx Hf. unfold register.
  destruct (futures w !! g) as [[[] ks]|] eqn:Hg; try done. simpl.
  rewrite list_lookup_insert_ne; [done|].
  intros ->. rewrite Hf in Hg. by inversion Hg; subst.
Qed.

Lemma keeps_new_future : keeps (λ w, (new_future w).2).
Proof. intros w f x Hx Hf. simpl. by apply lookup_app_l_Some. Qed.

Lemma keeps_then f onF onR : keeps (λ w, (then_ f onF onR w).2).
Proof.
  intros w g x Hx Hg. unfold then_. simpl.
  by apply keeps_register, keeps_new_future.
Qed.

Lemma keeps_delay (ms : nat) : keeps (λ w, (delay ms w).2).
Proof. intros w g x Hx Hg. unfold delay. simpl. by apply lookup_app_l_Some. Qed.

Lemma keeps_invoke_action action k r :
  keeps (λ w, (invoke_action action k r w).2).
Proof.
  intros w g x Hx Hg. unfold invoke_action. simpl.
  destruct (action k) as [[d o]|]; simpl; by apply lookup_app_l_Some.
Qed.

Lemma keeps_attempt action dp attempts k r :
  keeps (attempt action dp attempts k r).
Proof.
  intros w g x Hx Hg. unfold attempt.
  pose proof (keeps_invoke_action action k r w g x Hx Hg) as Hi.
  cbv beta in Hi. destruct (invoke_action action k r w) as [a w1].
  by apply keeps_register.
Qed.

Lemma keeps_complete (r : fid) : keeps (complete r).
Proof.
  intros w g x Hx Hg. unfold complete.
  destruct (slots w !! r) as [sl|]; [|done].
  destruct (collected sl); [|done]. by apply keeps_settle.
Qed.

Lemma keeps_react (k : reaction) (o : settlement) : keeps (react k o).
Proof.
  intros w g x Hx Hg.
  destruct k as [onF onR d|i r|action dp attempts k r|action dp attempts k r];
    unfold react.
  - destruct o as [v|e].
    + destruct onF as [h|]; [destruct (h v)|]; by apply keeps_settle.
    + destruct onR as [h|]; [destruct (h e)|]; by apply keeps_settle.
  - destruct o as [v|e]; [|by apply keeps_settle].
    by apply keeps_complete.
  - destruct o as [v|e]; [by apply keeps_settle|].
    destruct (S k <? attempts)%nat; [|by apply keeps_settle].
    pose proof (keeps_delay (dp k) w g x Hx Hg) as Hd.
    cbv beta in Hd. destruct (delay (dp k) w) as [d w1]. by apply keeps_register.
  - by apply keeps_attempt.
Qed.

Lemma keeps_turn : keeps turn.
Proof.
  intros w g x Hx Hg. unfold turn.
  destruct (queue w) as [|[k o] q]; [|by apply keeps_react].
  destruct (timers w) as [|[due [f o]] ts]; [done|]. by apply keeps_settle.
Qed.

Lemma keeps_foldl_register {A} (reg : A → fid * reaction) (l : list A) :
  keeps (λ w, foldl (λ w' a, register (reg a).1 (reg a).2 w') w l).
Proof.
  induction l as [|a l IH]; [apply keeps_id|].
  intros w g x Hx Hg. simpl. by apply IH, keeps_register.
Qed.

Lemma keeps_all (fs : list fid) : keeps (λ w, (all fs w).2).
Proof.
  intros w g x Hx Hg. unfold all. simpl.
  apply keeps_complete; [done|].
  rewrite (foldl_pointwise _
             (λ w' a, register a.2 (Collect a.1 (length (futures w))) w'))
    by (by intros w' [i f]).
  apply (keeps_foldl_register
           (λ a : nat * fid, (a.2, Collect a.1 (length (futures w)))));
    [done|].
  simpl. by apply lookup_app_l_Some.
Qed.

Lemma keeps_retry action attempts dp :
  keeps (λ w, (retry action attempts dp w).2).
Proof.
  intros w g x Hx Hg. unfold retry. simpl.
  destruct attempts; [by apply lookup_app_l_Some|].
  apply keeps_attempt; [done|]. by apply lookup_app_l_Some.
Qed.

Lemma keeps_invoke fn args : keeps (λ w, (invoke fn args w).2).
Proof.
  intros w g x Hx Hg. unfold invoke.
  destruct (fn args) as [[v|f]|e]; simpl; [|done|];
    (apply keeps_settle; [done|]; by apply lookup_app_l_Some).
Qed.

Lemma keeps_perform (p : policy) (op : operation) :
  keeps (λ w, perform p w op).
Proof.
  destruct op; simpl.
  - apply keeps_new_future.
  - apply keeps_settle.
  - apply keeps_settle.
  - apply keeps_then.
  - apply keeps_all.
  - apply keeps_delay.
  - apply keeps_retry.
  - apply keeps_invoke.
  - apply keeps_turn.
Qed.

Lemma keeps_operations (p : policy) (ops : list operation) :
  keeps (λ w, foldl (perform p) w ops).
Proof.
  induction ops as [|op ops IH]; [apply keeps_id|].
  intros w g x Hx Hg. simpl. by apply IH, keeps_perform.
Qed.

(** After a settling call the Future is settled. *)
Lemma settle_settles (f : fid) (o : settlement) (w : world) :
  f < length (futures w) →
  ∃ x, futures (settle f o w) !! f = Some x ∧ state_of x ≠ PENDING.
Proof.
  intros Hf. destruct (lookup_lt_is_Some_2 _ _ Hf) as [[s ks] Hx].
  assert (s = PENDING ∨ s ≠ PENDING) as [->|Hs]
    by (destruct s; (by left) || (by right)).
  - rewrite (settle_pending _ _ _ _ Hx). simpl.
    exists (MkFuture (settled o) []).
    split; [by apply list_lookup_insert_eq|apply settled_not_pending].
  - rewrite (settle_settled _ _ _ _ Hx Hs). by exists (MkFuture s ks).
Qed.

(** C1.  A Future settles at most once: after a settling call, whatever the
    application and the scheduler do next, the Future keeps its state with
    its value or reason, and a further [fulfill] or [fail], under either
    policy, leaves the whole world, and so every registered continuation, as
    it is. *)
Theorem settles_at_most_once (p p' : policy) (f : fid) (o : settlement)
    (w : world) (ops : list operation) (v : jsdata) (e : string) :
  f < length (futures w) →
  let w1 := settle f o w in
  let w2 := foldl (perform p) w1 ops in
  state f w1 ≠ Some PENDING ∧
  state f w2 = state f w1 ∧
  (fulfill p' f v w2).2 = w2 ∧
  (fail p' f e w2).2 = w2.
Proof.
  intros Hf w1 w2.
  destruct (settle_settles f o w Hf) as (x & Hx & Hs).
  assert (futures w2 !! f = Some x) as Hx2.
  { by apply keeps_operations. }
  unfold state. fold w1 in Hx. rewrite Hx, Hx2. simpl.
  repeat split.
  - congruence.
  - by eapply settle_settled.
  - by eapply settle_settled.
Qed.

(** C5.  [all] of an empty sequence returns a Future that is fulfilled with
    the empty sequence as it is returned, before any turn of the scheduler. *)
Theorem all_empty (w : world) :
  (all [] w).1 = length (futures w) ∧
  state (all [] w).1 (all [] w).2 = Some (FULFILLED (JArray [])).
Proof.
  unfold all. simpl. split; [done|].
  unfold complete. simpl. rewrite lookup_insert_eq. simpl.
  rewrite (settle_pending _ _ _ []) by apply lookup_new.
  unfold state. simpl. by rewrite list_lookup_insert_eq
    by (rewrite length_app; simpl; lia).
Qed.

(** C7.  When the callable raises, [invoke] returns, and the Future it
    returns is rejected with the reason the callable raised. *)
Theorem invoke_catches (fn : list jsdata → outcome returned)
    (args : list jsdata) (e : string) (w : world) :
  fn args = Throw e →
  ∃ r, (invoke fn args w).1 = Return r ∧
       state r (invoke fn args w).2 = Some (REJECTED e).
Proof.
  intros Hfn. unfold invoke. rewrite Hfn. simpl.
  exists (length (futures w)). split; [done|].
  rewrite (settle_pending _ _ _ []) by apply lookup_new.
  unfold state. simpl. by rewrite list_lookup_insert_eq
    by (rewrite length_app; simpl; lia).
Qed.

End FutureFacts.

(** ** [retry] amid whatever else goes on *)

Module RetryFacts.
Import Future FutureFacts.

(** *** Timers, registrations and the list of invocations *)

Lemma elem_of_add_timer due ev ts t :
  t ∈ add_timer due ev ts ↔ t = (due, ev) ∨ t ∈ ts.
Proof.
  induction ts as [|[d e] ts IH]; simpl.
  - rewrite list_elem_of_singleton. split; [auto|].
    intros [?|Hn]; [done|by apply elem_of_nil in Hn].
  - destruct (due <? d)%nat.
    + by rewrite elem_of_cons.
    + rewrite !elem_of_cons, IH. tauto.
Qed.

Lemma Forall_add_timer (Q : nat * (fid * settlement) → Prop) due ev ts :
  Q (due, ev) → Forall Q ts → Forall Q (add_timer due ev ts).
Proof.
  rewrite !Forall_forall. intros Hn Ho t [->|Ht]%elem_of_add_timer; auto.
Qed.

Lemma length_add_timer due ev ts : length (add_timer due ev ts) = S (length ts).
Proof.
  induction ts as [|[d e] ts IH]; simpl; [done|].
  destruct (due <? d)%nat; simpl; by rewrite ?IH.
Qed.

Lemma foreign_mono P n n' x : n ≤ n' → foreign P n x → foreign P n' x.
Proof. intros Hn [Hx HP]. split; [lia|done]. Qed.

Lemma invocations_of_app r w l :
  invocations_of r (set_invocations (invocations w ++ l) w)
  = invocations_of r w ++ (filter (λ e, e.1 = r) l).*2.
Proof. unfold invocations_of. simpl. by rewrite filter_app, fmap_app. Qed.

(** *** What leaves the Futures of a combinator to it *)

Lemma apart_same P mine ours w w' :
  futures w' = futures w → queue w' = queue w → timers w' = timers w →
  apart P mine ours w → apart P mine ours w'.
Proof. unfold apart. by intros -> -> ->. Qed.

Lemma apart_new_future P mine ours w :
  apart P mine ours w → apart P mine ours (new_future w).2.
Proof.
  intros (HP & (q1 & q2 & Hq & Hj) & Hreg & Htim).
  unfold apart. simpl. rewrite length_app. simpl.
  set (n := length (futures w)) in *.
  split; [|split; [|split]].
  - eapply Forall_impl; [exact HP|]. simpl. lia.
  - exists q1, q2. split; [done|].
    eapply Forall_impl; [exact Hj|]. intros j. apply foreign_mono. lia.
  - intros f x Hf HfP. apply lookup_app_Some in Hf as [Hf|[_ Hf]].
    + eapply Forall_impl; [by eapply Hreg|]. intros k.
      apply foreign_mono. lia.
    + apply list_lookup_singleton_Some in Hf as [_ <-]. done.
  - eapply Forall_impl; [exact Htim|]. intros t [Ht1 Ht2]. split; [lia|done].
Qed.

Lemma apart_add_timer P mine ours w due f o :
  apart P mine ours w → f < length (futures w) → (f ∈ P → (f, o) ∈ ours) →
  apart P mine ours (set_timers (add_timer due (f, o) (timers w)) w).
Proof.
  intros (HP & Hq & Hreg & Htim) Hf Ho.
  unfold apart. simpl. split; [done|]. split; [done|]. split; [done|].
  by apply Forall_add_timer.
Qed.

Lemma apart_register P mine ours w f k :
  apart P mine ours w → f ∉ P → foreign P (length (futures w)) (target k) →
  apart P mine ours (register f k w).
Proof.
  intros Hap Hf Hk. pose proof Hap as (HP & (q1 & q2 & Hq & Hj) & Hreg & Htim).
  unfold register.
  destruct (futures w !! f) as [[[|v|e] ks]|] eqn:Hl.
  - unfold apart. simpl. rewrite length_insert.
    split; [done|]. split; [by exists q1, q2|]. split; [|done].
    intros g x Hg HgP. destruct (decide (g = f)) as [->|Hne].
    + rewrite list_lookup_insert_eq in Hg by (by eapply lookup_lt_Some).
      simplify_eq/=. apply Forall_app. split; [exact (Hreg _ _ Hl HgP)|].
      by apply Forall_singleton.
    + rewrite list_lookup_insert_ne in Hg by done. by eapply Hreg.
  - unfold apart. simpl. split; [done|]. split; [|done].
    exists q1, (q2 ++ [(k, Fulfill v)]). rewrite Hq, <- !app_assoc.
    split; [done|]. rewrite app_assoc. apply Forall_app. split; [done|].
    by apply Forall_singleton.
  - unfold apart. simpl. split; [done|]. split; [|done].
    exists q1, (q2 ++ [(k, Fail e)]). rewrite Hq, <- !app_assoc.
    split; [done|]. rewrite app_assoc. apply Forall_app. split; [done|].
    by apply Forall_singleton.
  - done.
Qed.

(** A registration on one of the Futures left to the combinator. *)
Lemma apart_register_own P mine ours w f k ks :
  apart P mine ours w → f ∈ P →
  futures w !! f = Some (MkFuture PENDING ks) →
  apart P mine ours (register f k w).
Proof.
  intros (HP & Hq & Hreg & Htim) Hf Hl. unfold register. rewrite Hl.
  unfold apart. simpl. rewrite length_insert.
  split; [done|]. split; [done|]. split; [|done].
  intros g x Hg HgP. rewrite list_lookup_insert_ne in Hg by congruence.
  by eapply Hreg.
Qed.

Lemma apart_settle P mine ours w d o :
  apart P mine ours w →
  d ∉ P ∨ futures w !! d = Some (MkFuture PENDING []) →
  apart P mine ours (settle d o w).
Proof.
  intros Hap Hd. pose proof Hap as (HP & (q1 & q2 & Hq & Hj) & Hreg & Htim).
  unfold settle.
  destruct (futures w !! d) as [[[|v|e] ks]|] eqn:Hl; try done.
  assert (Forall (λ k, foreign P (length (futures w)) (target k)) ks) as Hks.
  { destruct Hd as [Hd|Hd]; [exact (Hreg _ _ Hl Hd)|]. by simplify_eq. }
  unfold apart. simpl. rewrite length_insert.
  split; [done|]. split; [|split; [|done]].
  - exists q1, (q2 ++ map (λ k, (k, o)) ks). rewrite Hq, <- !app_assoc.
    split; [done|]. rewrite app_assoc. apply Forall_app. split; [done|].
    apply Forall_fmap. eapply Forall_impl; [exact Hks|]. done.
  - intros g x Hg HgP. destruct (decide (g = d)) as [->|Hne].
    + rewrite list_lookup_insert_eq in Hg by (by eapply lookup_lt_Some).
      by simplify_eq/=.
    + rewrite list_lookup_insert_ne in Hg by done. by eapply Hreg.
Qed.

Lemma apart_complete P mine ours w r :
  apart P mine ours w → r ∉ P → apart P mine ours (complete r w).
Proof.
  intros Hap Hr. unfold complete.
  destruct (slots w !! r) as [sl|]; [|done].
  destruct (collected sl); [|done]. apply apart_settle; auto.
Qed.

Lemma apart_delay P mine ours w ms :
  apart P mine ours w → apart P mine ours (delay ms w).2.
Proof.
  intros Hap. unfold delay. simpl.
  apply (apart_add_timer P mine ours (new_future w).2).
  - by apply apart_new_future.
  - simpl. rewrite length_app. simpl. lia.
  - intros Hin. destruct Hap as (HP & _).
    rewrite Forall_forall in HP. apply HP in Hin. lia.
Qed.

Lemma apart_attempt P mine ours w action dp attempts k r :
  apart P mine ours w → foreign P (length (futures w)) r →
  apart P mine ours (attempt action dp attempts k r w).
Proof.
  intros Hap Hr. unfold attempt, invoke_action. simpl.
  assert (length (futures w) ∉ P) as Hn.
  { intros Hin. destruct Hap as (HP & _).
    rewrite Forall_forall in HP. apply HP in Hin. lia. }
  apply apart_register; [|done|].
  - destruct (action k) as [[d o]|].
    + apply (apart_add_timer P mine ours
               (set_invocations _ (new_future w).2)).
      * eapply apart_same; [..|by apply apart_new_future]; done.
      * simpl. rewrite length_app. simpl. lia.
      * done.
    + eapply apart_same; [..|by apply apart_new_future]; done.
  - eapply foreign_mono; [|exact Hr].
    destruct (action k) as [[d o]|]; simpl; rewrite length_app; lia.
Qed.

Lemma apart_react P mine ours w k o :
  apart P mine ours w → foreign P (length (futures w)) (target k) →
  apart P mine ours (react k o w).
Proof.
  intros Hap [Hlt Hk].
  destruct k as [onF onR d|i r|action dp attempts k r|action dp attempts k r];
    simpl in Hlt, Hk; unfold react.
  - destruct o as [v|e].
    + destruct onF as [h|]; [destruct (h v)|]; apply apart_settle; auto.
    + destruct onR as [h|]; [destruct (h e)|]; apply apart_settle; auto.
  - destruct o as [v|e]; [|apply apart_settle; auto].
    apply apart_complete; [|done]. by eapply apart_same; [..|exact Hap].
  - destruct o as [v|e]; [apply apart_settle; auto|].
    destruct (S k <? attempts)%nat; [|apply apart_settle; auto].
    pose proof (apart_delay P mine ours w (dp k) Hap) as Hd.
    assert ((delay (dp k) w).1 = length (futures w)) as H1 by done.
    assert (length (futures (delay (dp k) w).2) = S (length (futures w)))
      as H2 by (unfold delay; simpl; rewrite length_app; simpl; lia).
    destruct (delay (dp k) w) as [d w1]. simpl in *. subst d.
    apply apart_register; [done| |].
    + intros Hin. destruct Hap as (HP & _).
      rewrite Forall_forall in HP. apply HP in Hin. lia.
    + split; [simpl; lia|done].
  - by apply apart_attempt.
Qed.

(** *** What leaves the Futures of a combinator as they are *)

Lemma undisturbed_refl P w : undisturbed P w w.
Proof. by split; [|split]. Qed.

Lemma undisturbed_trans P w1 w2 w3 :
  undisturbed P w1 w2 → undisturbed P w2 w3 → undisturbed P w1 w3.
Proof.
  intros (Hf1 & Hi1 & Ht1) (Hf2 & Hi2 & Ht2). split; [|split].
  - intros x Hx. by rewrite Hf2, Hf1.
  - intros r Hr. by rewrite Hi2, Hi1.
  - intros t Ht HP. auto.
Qed.

Lemma undisturbed_same P w w' :
  futures w' = futures w → invocations w' = invocations w →
  timers w' = timers w → undisturbed P w w'.
Proof.
  intros Hf Hi Ht. unfold undisturbed, invocations_of.
  rewrite Hf, Hi, Ht. by split; [|split].
Qed.

Lemma undisturbed_settle P w d o : d ∉ P → undisturbed P w (settle d o w).
Proof.
  intros Hd. unfold settle.
  destruct (futures w !! d) as [[[|v|e] ks]|] eqn:Hl;
    try apply undisturbed_refl.
  split; [|split]; [|done..]. intros x Hx. simpl.
  apply list_lookup_insert_ne. congruence.
Qed.

Lemma undisturbed_register P w f k : f ∉ P → undisturbed P w (register f k w).
Proof.
  intros Hf. unfold register.
  destruct (futures w !! f) as [[[|v|e] ks]|] eqn:Hl;
    try (by apply undisturbed_same).
  split; [|split]; [|done..]. intros x Hx. simpl.
  apply list_lookup_insert_ne. congruence.
Qed.

Lemma undisturbed_complete P w r : r ∉ P → undisturbed P w (complete r w).
Proof.
  intros Hr. unfold complete.
  destruct (slots w !! r) as [sl|]; [|apply undisturbed_refl].
  destruct (collected sl); [|apply undisturbed_refl].
  by apply undisturbed_settle.
Qed.

Lemma undisturbed_new_future P w :
  Forall (λ x, x < length (futures w)) P →
  undisturbed P w (new_future w).2.
Proof.
  intros HP. split; [|split]; [|done..]. intros x Hx. simpl.
  rewrite Forall_forall in HP. by apply lookup_app_l, HP.
Qed.

Lemma undisturbed_add_timer P w due ev :
  undisturbed P w (set_timers (add_timer due ev (timers w)) w).
Proof.
  split; [|split]; [done..|]. intros t Ht _. simpl.
  apply elem_of_add_timer. by right.
Qed.

Lemma undisturbed_invocation P w r k :
  r ∉ P → undisturbed P w (set_invocations (invocations w ++ [(r, k)]) w).
Proof.
  intros Hr. split; [|split]; [done| |done]. intros r' Hr'.
  rewrite invocations_of_app, filter_cons_False, filter_nil by (simpl; congruence).
  by rewrite app_nil_r.
Qed.

Lemma undisturbed_delay P w ms :
  Forall (λ x, x < length (futures w)) P →
  undisturbed P w (delay ms w).2.
Proof.
  intros HP. unfold delay. simpl.
  eapply undisturbed_trans; [by apply undisturbed_new_future|].
  apply (undisturbed_add_timer P (new_future w).2).
Qed.

Lemma undisturbed_attempt P w action dp attempts k r :
  Forall (λ x, x < length (futures w)) P → r ∉ P →
  undisturbed P w (attempt action dp attempts k r w).
Proof.
  intros HP Hr. unfold attempt, invoke_action. simpl.
  assert (length (futures w) ∉ P) as Hn.
  { intros Hin. rewrite Forall_forall in HP. apply HP in Hin. lia. }
  eapply undisturbed_trans; [|by apply undisturbed_register].
  eapply undisturbed_trans; [by apply undisturbed_new_future|].
  eapply undisturbed_trans;
    [by apply (undisturbed_invocation P (new_future w).2 r k)|].
  destruct (action k) as [[d o]|]; [|apply undisturbed_refl].
  apply (undisturbed_add_timer P (set_invocations _ (new_future w).2)).
Qed.

Lemma undisturbed_react P w k o :
  Forall (λ x, x < length (futures w)) P → target k ∉ P →
  undisturbed P w (react k o w).
Proof.
  intros HP Hk.
  destruct k as [onF onR d|i r|action dp attempts k r|action dp attempts k r];
    simpl in Hk; unfold react.
  - destruct o as [v|e].
    + destruct onF as [h|]; [destruct (h v)|]; by apply undisturbed_settle.
    + destruct onR as [h|]; [destruct (h e)|]; by apply undisturbed_settle.
  - destruct o as [v|e]; [|by apply undisturbed_settle].
    eapply undisturbed_trans; [|by apply undisturbed_complete].
    by apply undisturbed_same.
  - destruct o as [v|e]; [by apply undisturbed_settle|].
    destruct (S k <? attempts)%nat; [|by apply undisturbed_settle].
    pose proof (undisturbed_delay P w (dp k) HP) as Hd.
    assert ((delay (dp k) w).1 = length (futures w)) as H1 by done.
    destruct (delay (dp k) w) as [d w1]. simpl in *. subst d.
    eapply undisturbed_trans; [exact Hd|]. apply undisturbed_register.
    intros Hin. rewrite Forall_forall in HP. apply HP in Hin. lia.
  - by apply undisturbed_attempt.
Qed.

(** *** One turn *)

Lemma apart_pop P mine ours w j q1 q2 :
  apart P mine ours w → queue w = j :: q1 ++ mine ++ q2 →
  Forall (λ j, foreign P (length (futures w)) (target j.1)) (q1 ++ q2) →
  apart P mine ours (set_queue (q1 ++ mine ++ q2) w).
Proof.
  intros (HP & _ & Hreg & Htim) Hq Hj. unfold apart. simpl.
  split; [done|]. split; [by exists q1, q2|done].
Qed.

Lemma turn_foreign_job P mine ours w k o q1 q2 :
  apart P mine ours w → queue w = (k, o) :: q1 ++ mine ++ q2 →
  Forall (λ j, foreign P (length (futures w)) (target j.1))
         ((k, o) :: q1 ++ q2) →
  apart P mine ours (turn w) ∧ undisturbed P w (turn w).
Proof.
  intros Hap Hq Hj. apply Forall_cons in Hj as [[Hlt Hk] Hj]. simpl in Hlt, Hk.
  unfold turn. rewrite Hq.
  pose proof (apart_pop _ _ _ _ _ _ _ Hap Hq Hj) as Hap'.
  split.
  - by apply apart_react.
  - eapply undisturbed_trans;
      [apply (undisturbed_same P w (set_queue (q1 ++ mine ++ q2) w)); done|].
    apply undisturbed_react; [|done]. by destruct Hap as (HP & _).
Qed.

(** What a turn does, seen from a combinator: it goes to the others, or to
    the combinator's scheduled registration, or to one of its timers. *)
Lemma turn_cases P mine ours w :
  apart P mine ours w →
  (apart P mine ours (turn w) ∧ undisturbed P w (turn w))
  ∨ (∃ k o mine' q,
       mine = (k, o) :: mine' ∧ queue w = (k, o) :: mine' ++ q ∧
       turn w = react k o (set_queue (mine' ++ q) w) ∧
       apart P mine' ours (set_queue (mine' ++ q) w))
  ∨ (∃ due f o ts,
       queue w = [] ∧ mine = [] ∧ timers w = (due, (f, o)) :: ts ∧
       f ∈ P ∧ (f, o) ∈ ours ∧
       turn w = settle f o (set_clock (Nat.max (clock w) due) (set_timers ts w)) ∧
       apart P [] ours (set_clock (Nat.max (clock w) due) (set_timers ts w))).
Proof.
  intros Hap. pose proof Hap as (HP & (q1 & q2 & Hq & Hj) & Hreg & Htim).
  destruct q1 as [|[k o] q1].
  - destruct mine as [|[k o] mine'].
    + destruct q2 as [|[k o] q2].
      * (* nothing is scheduled *)
        simpl in Hq.
        destruct (timers w) as [|[due [f o]] ts] eqn:Hts.
        { left. unfold turn. rewrite Hq, Hts. split; [done|].
          apply undisturbed_refl. }
        apply Forall_cons in Htim as [[Hf Ho] Htim]. simpl in Hf, Ho.
        assert (apart P [] ours
                  (set_clock (Nat.max (clock w) due) (set_timers ts w)))
          as Hap'.
        { unfold apart. simpl. split; [done|].
          split; [exists [], []; by rewrite Hq|done]. }
        destruct (decide (f ∈ P)) as [HfP|HfP].
        { right. right. exists due, f, o, ts. unfold turn.
          rewrite Hq, Hts. auto 10. }
        left. unfold turn. rewrite Hq, Hts. split.
        { apply apart_settle; auto. }
        eapply undisturbed_trans; [|by apply undisturbed_settle].
        split; [|split]; [done..|]. intros t Ht HtP. simpl.
        rewrite Hts in Ht. apply elem_of_cons in Ht as [->|Ht]; done.
      * left. by apply (turn_foreign_job P [] ours w k o [] q2).
    + right. left. exists k, o, mine', q2. simpl in Hq.
      split; [done|]. split; [done|]. unfold turn. rewrite Hq.
      split; [done|].
      unfold apart. simpl. split; [done|].
      split; [by exists [], q2|done].
  - left. by apply (turn_foreign_job P mine ours w k o q1 q2).
Qed.

(** *** What the script foresees *)

Lemma foreseen_step action k remaining :
  foreseen action k (S (S remaining))
  = match action k with
    | None => (PENDING, 1)
    | Some (_, Fulfill v) => (FULFILLED v, 1)
    | Some (_, Fail e) =>
        ((foreseen action (S k) (S remaining)).1,
         S (foreseen action (S k) (S remaining)).2)
    end.
Proof. reflexivity. Qed.

Lemma foreseen_bound action remaining :
  ∀ k, (foreseen action k remaining).2 ≤ remaining.
Proof.
  induction remaining as [|m IH]; intros k; simpl; [done|].
  destruct (action k) as [[d [v|e]]|]; simpl; try lia.
  destruct m; simpl; [lia|]. specialize (IH (S k)). simpl in IH. lia.
Qed.

Lemma foreseen_first_success action remaining :
  ∀ k j d v,
    j < remaining →
    action (k + j) = Some (d, Fulfill v) →
    (∀ i, i < j → ∃ d' e, action (k + i) = Some (d', Fail e)) →
    foreseen action k remaining = (FULFILLED v, S j).
Proof.
  induction remaining as [|m IH]; intros k j d v Hj Hok Hfail; [lia|].
  destruct j as [|j].
  - rewrite Nat.add_0_r in Hok. simpl. by rewrite Hok.
  - destruct (Hfail 0) as (d' & e & H0); [lia|].
    rewrite Nat.add_0_r in H0.
    destruct m as [|m]; [lia|].
    rewrite foreseen_step, H0.
    rewrite (IH (S k) j d v).
    + done.
    + lia.
    + by replace (S k + j) with (k + S j) by lia.
    + intros i Hi. destruct (Hfail (S i)) as (d'' & e' & HSi); [lia|].
      replace (k + S i) with (S k + i) in HSi by lia. eauto.
Qed.

Lemma foreseen_exhausted action m :
  ∀ k d e,
    (∀ i, i < S m → ∃ d' e', action (k + i) = Some (d', Fail e')) →
    action (k + m) = Some (d, Fail e) →
    foreseen action k (S m) = (REJECTED e, S m).
Proof.
  induction m as [|m IH]; intros k d e Hfail Hlast.
  - rewrite Nat.add_0_r in Hlast. simpl. by rewrite Hlast.
  - destruct (Hfail 0) as (d' & e' & H0); [lia|].
    rewrite Nat.add_0_r in H0.
    rewrite foreseen_step, H0.
    rewrite (IH (S k) d e).
    + done.
    + intros i Hi. destruct (Hfail (S i)) as (d'' & e'' & HSi); [lia|].
      replace (k + S i) with (S k + i) in HSi by lia. eauto.
    + by replace (S k + m) with (k + S m) by lia.
Qed.

Lemma foreseen_hangs action remaining :
  ∀ k j,
    j < remaining →
    action (k + j) = None →
    (∀ i, i < j → ∃ d' e, action (k + i) = Some (d', Fail e)) →
    foreseen action k remaining = (PENDING, S j).
Proof.
  induction remaining as [|m IH]; intros k j Hj Hno Hfail; [lia|].
  destruct j as [|j].
  - rewrite Nat.add_0_r in Hno. simpl. by rewrite Hno.
  - destruct (Hfail 0) as (d' & e & H0); [lia|].
    rewrite Nat.add_0_r in H0.
    destruct m as [|m]; [lia|].
    rewrite foreseen_step, H0.
    rewrite (IH (S k) j).
    + done.
    + lia.
    + by replace (S k + j) with (k + S j) by lia.
    + intros i Hi. destruct (Hfail (S i)) as (d'' & e' & HSi); [lia|].
      replace (k + S i) with (S k + i) in HSi by lia. eauto.
Qed.

(** *** The phases of a [retry] *)

Section Retry.

Context (action : script) (dp : nat → nat) (attempts : nat) (r : fid).

Lemma failed_before_S k d e :
  failed_before action k → action k = Some (d, Fail e) →
  failed_before action (S k).
Proof.
  intros Hf Hk i Hi. destruct (decide (i = k)) as [->|Hne]; [eauto|].
  apply Hf. lia.
Qed.

Lemma foreseen_success k d v :
  k < attempts → failed_before action k → action k = Some (d, Fulfill v) →
  foreseen action 0 attempts = (FULFILLED v, S k).
Proof. intros Hk Hf Ha. by apply (foreseen_first_success action attempts 0 k d v). Qed.

Lemma foreseen_last k d e :
  attempts = S k → failed_before action k → action k = Some (d, Fail e) →
  foreseen action 0 attempts = (REJECTED e, S k).
Proof.
  intros -> Hf Ha. apply (foreseen_exhausted action k 0 d e); [|done].
  by apply (failed_before_S k d e).
Qed.

Lemma foreseen_hung k :
  k < attempts → failed_before action k → action k = None →
  foreseen action 0 attempts = (PENDING, S k).
Proof. intros Hk Hf Ha. by apply (foreseen_hangs action attempts 0 k). Qed.

(** The Future a combinator creates is left to it. *)
Lemma apart_own_future P mine ours' w :
  apart P mine [] w →
  apart (P ++ [length (futures w)]) mine ours' (new_future w).2.
Proof.
  intros (HP & (q1 & q2 & Hq & Hj) & Hreg & Htim).
  unfold apart. simpl. rewrite length_app. simpl.
  set (n := length (futures w)) in *.
  assert (∀ x, foreign P n x → foreign (P ++ [n]) (n + 1) x) as Hup.
  { intros x [Hx HxP]. split; [lia|].
    rewrite not_elem_of_app, list_elem_of_singleton. split; [done|lia]. }
  split; [|split; [|split]].
  - apply Forall_app. split.
    + eapply Forall_impl; [exact HP|]. simpl. lia.
    + apply Forall_singleton. lia.
  - exists q1, q2. split; [done|].
    eapply Forall_impl; [exact Hj|]. intros j. apply Hup.
  - intros f x Hf HfP.
    rewrite not_elem_of_app, list_elem_of_singleton in HfP.
    destruct HfP as [HfP Hfn].
    apply lookup_app_Some in Hf as [Hf|[Hge Hf]].
    + eapply Forall_impl; [exact (Hreg _ _ Hf HfP)|]. intros k. apply Hup.
    + apply list_lookup_singleton_Some in Hf as [Hf _]. fold n in Hge, Hf. lia.
  - eapply Forall_impl; [exact Htim|]. intros t [Ht1 Ht2]. split; [lia|].
    rewrite elem_of_app, list_elem_of_singleton.
    intros [Hin|Hin]; [|lia]. apply Ht2 in Hin. by apply elem_of_nil in Hin.
Qed.

(** The Future a combinator was waiting for settles: what it held is
    scheduled, and the Future is no longer the combinator's concern. *)
Lemma apart_settle_awaited a o ks ours w :
  apart [r; a] [] ours w → r ≠ a →
  Forall (λ t, t.1 = a) ours →
  futures w !! a = Some (MkFuture PENDING ks) →
  apart [r] (map (λ k, (k, o)) ks) [] (settle a o w).
Proof.
  intros (HP & (q1 & q2 & Hq & Hj) & Hreg & Htim) Hne Hours Ha.
  rewrite (settle_pending _ _ _ _ Ha). unfold apart. simpl.
  rewrite length_insert.
  assert (∀ x, foreign [r; a] (length (futures w)) x →
               foreign [r] (length (futures w)) x) as Hdown.
  { intros x [Hx HxP]. split; [done|]. intros Hin. apply HxP.
    apply list_elem_of_singleton in Hin as ->. apply list_elem_of_here. }
  split; [|split; [|split]].
  - apply Forall_cons in HP as [Hr _]. by apply Forall_singleton.
  - exists (q1 ++ q2), []. simpl in Hq. rewrite Hq, !app_nil_r.
    split; [done|]. eapply Forall_impl; [exact Hj|]. intros j. apply Hdown.
  - intros f x Hf HfP. destruct (decide (f = a)) as [->|Hfa].
    + rewrite list_lookup_insert_eq in Hf by (by eapply lookup_lt_Some).
      by simplify_eq/=.
    + rewrite list_lookup_insert_ne in Hf by done.
      eapply Forall_impl.
      { apply (Hreg _ _ Hf). intros [->|Hin]%elem_of_cons.
        - apply HfP, list_elem_of_here.
        - by apply list_elem_of_singleton in Hin. }
      intros k. apply Hdown.
  - eapply Forall_impl; [exact Htim|]. intros t [Ht1 Ht2]. split; [done|].
    intros Hin. apply list_elem_of_singleton in Hin.
    assert (t.2 ∈ ours) as Ho by (apply Ht2; rewrite Hin; apply list_elem_of_here).
    rewrite Forall_forall in Hours. apply Hours in Ho. congruence.
Qed.

Lemma settle_invocations f o w : invocations (settle f o w) = invocations w.
Proof. unfold settle. by destruct (futures w !! f) as [[[] ks]|]. Qed.

Lemma insert_new (fs : list future) (x y : future) :
  <[length fs := y]> (fs ++ [x]) = fs ++ [y].
Proof. rewrite insert_app_r_alt by lia. by rewrite Nat.sub_diag. Qed.

Lemma attempt_eq k w :
  attempt action dp attempts k r w
  = World (futures w ++ [MkFuture PENDING [Attempt action dp attempts k r]])
          (queue w)
          (match action k with
           | Some (d, o) =>
               add_timer (clock w + d) (length (futures w), o) (timers w)
           | None => timers w
           end)
          (clock w) (slots w) (invocations w ++ [(r, k)]).
Proof.
  unfold attempt, invoke_action, new_future. simpl.
  destruct (action k) as [[d o]|]; unfold register; simpl;
    by rewrite lookup_new, insert_new.
Qed.

Lemma delay_then_again_eq k w :
  (let '(d, w1) := delay (dp k) w in
   register d (Again action dp attempts (S k) r) w1)
  = World (futures w ++ [MkFuture PENDING [Again action dp attempts (S k) r]])
          (queue w)
          (add_timer (clock w + dp k) (length (futures w), Fulfill JUndefined)
                     (timers w))
          (clock w) (slots w) (invocations w).
Proof.
  unfold delay, new_future. simpl. unfold register. simpl.
  by rewrite lookup_new, insert_new.
Qed.

Ltac inP := repeat first [apply list_elem_of_here | apply list_elem_of_further].

(** An invocation made for this [retry], in a world that leaves its result
    to it. *)
Lemma attempt_own k w :
  apart [r] [] [] w → futures w !! r = Some (MkFuture PENDING []) →
  k < attempts → failed_before action k → invocations_of r w = seq 0 k →
  at_phase action dp attempts r (Waiting k (length (futures w)))
           (attempt action dp attempts k r w).
Proof.
  intros Hap Hr Hk Hfail Hinv. cbn [at_phase].
  assert (r < length (futures w)) as Hlt by (by eapply lookup_lt_Some).
  split_and!.
  - unfold attempt, invoke_action. simpl.
    set (ours := match action k with
                 | Some (_, o) => [(length (futures w), o)]
                 | None => []
                 end).
    pose proof (apart_own_future [r] [] ours w Hap) as Hown.
    apply (apart_register_own _ _ _ _ _ _ []); [|inP|].
    + destruct (action k) as [[d o]|].
      * apply (apart_add_timer _ _ _ (set_invocations _ (new_future w).2)).
        -- eapply apart_same; [..|exact Hown]; done.
        -- simpl. rewrite length_app. simpl. lia.
        -- intros _. subst ours. inP.
      * eapply apart_same; [..|exact Hown]; done.
    + destruct (action k) as [[d o]|]; simpl; apply lookup_new.
  - lia.
  - done.
  - done.
  - rewrite attempt_eq. simpl. by apply lookup_app_l_Some.
  - rewrite attempt_eq. simpl. apply lookup_new.
  - intros d o Hact. rewrite attempt_eq. simpl. rewrite Hact.
    eexists. apply elem_of_add_timer. by left.
  - rewrite attempt_eq. unfold invocations_of in *. cbn [invocations].
    rewrite filter_app, fmap_app, Hinv, filter_cons_True, filter_nil by done.
    by rewrite seq_S.
Qed.

Lemma step_waiting k a w :
  at_phase action dp attempts r (Waiting k a) w →
  ∃ ph, at_phase action dp attempts r ph (turn w).
Proof.
  intros (Hap & Hne & Hk & Hfail & Hr & Ha & Htimer & Hinv).
  destruct (turn_cases _ _ _ _ Hap)
    as [[Hap' (Hf & Hi & Ht)]
       |[(k0 & o0 & m' & q & Hm & _)
        |(due & f & o & ts & Hq & _ & Hts & HfP & Ho & Hturn & Hap')]].
  - exists (Waiting k a). cbn [at_phase]. split_and!; try done.
    + by rewrite Hf by inP.
    + by rewrite Hf by inP.
    + intros d o Hact. destruct (Htimer d o Hact) as [due Hdue].
      exists due. apply Ht; [done|]. simpl. inP.
    + by rewrite Hi by inP.
  - discriminate.
  - destruct (action k) as [[d o']|] eqn:Hact; [|by apply elem_of_nil in Ho].
    apply list_elem_of_singleton in Ho. inversion Ho; subst f o'.
    exists (Reacting k o). cbn [at_phase]. rewrite Hturn.
    split_and!; try done.
    + apply (apart_settle_awaited a o
               [Attempt action dp attempts k r] [(a, o)]); try done.
      by apply Forall_singleton.
    + by exists d.
    + rewrite (settle_pending a o (set_clock _ (set_timers ts w)) _ Ha). simpl.
      by rewrite list_lookup_insert_ne.
    + unfold invocations_of in *. by rewrite settle_invocations.
Qed.

Lemma step_sleeping k d w :
  at_phase action dp attempts r (Sleeping k d) w →
  ∃ ph, at_phase action dp attempts r ph (turn w).
Proof.
  intros (Hap & Hne & Hk & Hfail & Hr & Hd & [due0 Htimer] & Hinv).
  destruct (turn_cases _ _ _ _ Hap)
    as [[Hap' (Hf & Hi & Ht)]
       |[(k0 & o0 & m' & q & Hm & _)
        |(due & f & o & ts & Hq & _ & Hts & HfP & Ho & Hturn & Hap')]].
  - exists (Sleeping k d). cbn [at_phase]. split_and!; try done.
    + by rewrite Hf by inP.
    + by rewrite Hf by inP.
    + exists due0. apply Ht; [done|]. simpl. inP.
    + by rewrite Hi by inP.
  - discriminate.
  - apply list_elem_of_singleton in Ho. inversion Ho; subst f o.
    exists (Waking k). cbn [at_phase]. rewrite Hturn.
    split_and!; try done.
    + apply (apart_settle_awaited d (Fulfill JUndefined)
               [Again action dp attempts k r] [(d, Fulfill JUndefined)]);
        try done.
      by apply Forall_singleton.
    + rewrite (settle_pending d _ (set_clock _ (set_timers ts w)) _ Hd). simpl.
      by rewrite list_lookup_insert_ne.
    + unfold invocations_of in *. by rewrite settle_invocations.
Qed.

Lemma step_waking k w :
  at_phase action dp attempts r (Waking k) w →
  ∃ ph, at_phase action dp attempts r ph (turn w).
Proof.
  intros (Hap & Hk & Hfail & Hr & Hinv).
  destruct (turn_cases _ _ _ _ Hap)
    as [[Hap' (Hf & Hi & Ht)]
       |[(k0 & o0 & m' & q & Hm & Hq & Hturn & Hap')
        |(due & f & o & ts & _ & Hm & _)]].
  - exists (Waking k). cbn [at_phase]. split_and!; try done.
    + by rewrite Hf by inP.
    + by rewrite Hi by inP.
  - inversion Hm; subst k0 o0 m'. eexists. rewrite Hturn. unfold react.
    by apply attempt_own.
  - discriminate.
Qed.

Lemma step_reacting k o w :
  at_phase action dp attempts r (Reacting k o) w →
  ∃ ph, at_phase action dp attempts r ph (turn w).
Proof.
  intros (Hap & Hk & Hfail & (d & Hact) & Hr & Hinv).
  destruct (turn_cases _ _ _ _ Hap)
    as [[Hap' (Hf & Hi & Ht)]
       |[(k0 & o0 & m' & q & Hm & Hq & Hturn & Hap')
        |(due & f & o' & ts & _ & Hm & _)]].
  - exists (Reacting k o). cbn [at_phase]. split_and!; try done.
    + by exists d.
    + by rewrite Hf by inP.
    + by rewrite Hi by inP.
  - inversion Hm; subst k0 o0 m'. rewrite Hturn. clear Hturn Hm.
    set (w0 := set_queue ([] ++ q) w) in *.
    assert (futures w0 !! r = Some (MkFuture PENDING [])) as Hr0 by done.
    assert (invocations_of r w0 = seq 0 (S k)) as Hinv0 by done.
    assert (r < length (futures w0)) as Hlt by (by eapply lookup_lt_Some).
    clearbody w0. unfold react.
    assert (∀ o1, settled o1 = (foreseen action 0 attempts).1 →
                  (foreseen action 0 attempts).2 = S k →
                  at_phase action dp attempts r Over (settle r o1 w0))
      as Hover.
    { intros o1 Ho1 Hc. cbn [at_phase]. split_and!.
      - apply apart_settle; auto.
      - unfold state. rewrite (settle_pending _ _ _ _ Hr0). simpl.
        rewrite list_lookup_insert_eq by done. simpl. by rewrite Ho1.
      - unfold invocations_of in *. by rewrite settle_invocations, Hc. }
    destruct o as [v|e].
    { exists Over. apply Hover; by rewrite (foreseen_success k d v). }
    destruct (S k <? attempts)%nat eqn:Hmore.
    + apply Nat.ltb_lt in Hmore.
      exists (Sleeping (S k) (length (futures w0))). cbn [at_phase].
      split_and!.
      * unfold delay. simpl.
        pose proof (apart_own_future [r] []
                      [(length (futures w0), Fulfill JUndefined)] w0 Hap')
          as Hown.
        apply (apart_register_own _ _ _ _ _ _ []); [|inP|].
        -- apply (apart_add_timer _ _ _ (new_future w0).2); [done| |].
           ++ simpl. rewrite length_app. simpl. lia.
           ++ intros _. inP.
        -- simpl. apply lookup_new.
      * lia.
      * done.
      * by apply (failed_before_S k d e).
      * rewrite delay_then_again_eq. simpl. by apply lookup_app_l_Some.
      * rewrite delay_then_again_eq. simpl. apply lookup_new.
      * rewrite delay_then_again_eq. simpl.
        eexists. apply elem_of_add_timer. by left.
      * by rewrite delay_then_again_eq.
    + apply Nat.ltb_ge in Hmore.
      exists Over. apply Hover; rewrite (foreseen_last k d e); try done; lia.
  - discriminate.
Qed.

Lemma step_over w :
  at_phase action dp attempts r Over w →
  ∃ ph, at_phase action dp attempts r ph (turn w).
Proof.
  intros (Hap & Hs & Hinv).
  destruct (turn_cases _ _ _ _ Hap)
    as [[Hap' (Hf & Hi & Ht)]
       |[(k0 & o0 & m' & q & Hm & _)
        |(due & f & o & ts & _ & _ & _ & _ & Ho & _)]].
  - exists Over. cbn [at_phase]. split_and!; try done.
    + unfold state in *. by rewrite Hf by inP.
    + by rewrite Hi by inP.
  - discriminate.
  - by apply elem_of_nil in Ho.
Qed.

Lemma step ph w :
  at_phase action dp attempts r ph w →
  ∃ ph', at_phase action dp attempts r ph' (turn w).
Proof.
  destruct ph as [k a|k o|k d|k|].
  - apply step_waiting.
  - apply step_reacting.
  - apply step_sleeping.
  - apply step_waking.
  - apply step_over.
Qed.

Lemma run_turn (n : nat) (w : world) : run (S n) w = run n (turn w).
Proof. unfold run. by rewrite Nat.iter_succ_r. Qed.

Lemma steps n : ∀ ph w,
  at_phase action dp attempts r ph w →
  ∃ ph', at_phase action dp attempts r ph' (run n w).
Proof.
  induction n as [|n IH]; intros ph w Hph; [by exists ph|].
  rewrite run_turn. destruct (step ph w Hph) as [ph' Hph']. by eapply IH.
Qed.

(** At every phase the action has been invoked at most [attempts] times. *)
Lemma phase_bound ph w :
  at_phase action dp attempts r ph w →
  length (invocations_of r w) ≤ attempts.
Proof.
  destruct ph as [k a|k o|k d|k|]; cbn [at_phase]; intros Hph.
  - destruct Hph as (_ & _ & Hk & _ & _ & _ & _ & ->). rewrite length_seq. lia.
  - destruct Hph as (_ & Hk & _ & _ & _ & ->). rewrite length_seq. lia.
  - destruct Hph as (_ & _ & Hk & _ & _ & _ & _ & ->). rewrite length_seq. lia.
  - destruct Hph as (_ & Hk & _ & _ & ->). rewrite length_seq. lia.
  - destruct Hph as (_ & _ & ->). rewrite length_seq.
    apply foreseen_bound.
Qed.

(** Once nothing is scheduled and no timer is set, the result is as the
    script foresees. *)
Lemma phase_quiescent ph w :
  at_phase action dp attempts r ph w → quiescent w →
  state r w = Some (foreseen action 0 attempts).1 ∧
  invocations_of r w = seq 0 (foreseen action 0 attempts).2.
Proof.
  intros Hph [Hq Ht].
  destruct ph as [k a|k o|k d|k|]; cbn [at_phase] in Hph.
  - destruct Hph as (_ & _ & Hk & Hfail & Hr & _ & Htimer & Hinv).
    destruct (action k) as [[d o]|] eqn:Hact.
    + destruct (Htimer d o eq_refl) as [due Hdue]. rewrite Ht in Hdue.
      by apply elem_of_nil in Hdue.
    + rewrite (foreseen_hung k) by done. unfold state. by rewrite Hr.
  - destruct Hph as ((_ & (q1 & q2 & Hqw & _) & _) & _).
    rewrite Hq in Hqw. by destruct q1.
  - destruct Hph as (_ & _ & _ & _ & _ & _ & [due Hdue] & _).
    rewrite Ht in Hdue. by apply elem_of_nil in Hdue.
  - destruct Hph as ((_ & (q1 & q2 & Hqw & _) & _) & _).
    rewrite Hq in Hqw. by destruct q1.
  - by destruct Hph as (_ & Hs & Hinv).
Qed.

End Retry.

(** *** Every world comes to rest *)

Lemma sum_list_with_insert {A} (g : A → nat) (l : list A) i x y :
  l !! i = Some x →
  sum_list_with g (<[i:=y]> l) + g x = sum_list_with g l + g y.
Proof.
  revert i. induction l as [|z l IH]; intros [|i] Hl; simplify_eq/=; [lia|].
  specialize (IH i Hl). lia.
Qed.

Lemma scheduled_weight_pos k : 0 < scheduled_weight k.
Proof. destruct k; simpl; lia. Qed.

Lemma scheduled_le_registered o ks :
  sum_list_with (λ j : reaction * settlement, scheduled_weight j.1)
                (map (λ k, (k, o)) ks)
  ≤ sum_list_with registered_weight ks.
Proof.
  unfold registered_weight. induction ks as [|k ks IH]; simpl; [done|lia].
Qed.

Lemma work_settle f o w : pending_work (settle f o w) ≤ pending_work w.
Proof.
  unfold settle. destruct (futures w !! f) as [[[|v|e] ks]|] eqn:Hl; try done.
  unfold pending_work. simpl. rewrite sum_list_with_app.
  pose proof (sum_list_with_insert
                (λ x, sum_list_with registered_weight (continuations x))
                (futures w) f _ (MkFuture (settled o) []) Hl) as Hi.
  pose proof (scheduled_le_registered o ks). simpl in Hi. lia.
Qed.

Lemma work_complete r w : pending_work (complete r w) ≤ pending_work w.
Proof.
  unfold complete. destruct (slots w !! r) as [sl|]; [|done].
  destruct (collected sl); [|done]. apply work_settle.
Qed.

Lemma work_attempt action dp attempts k r w :
  pending_work (attempt action dp attempts k r w)
  ≤ pending_work w + 6 * (attempts - S k) + 3.
Proof.
  rewrite attempt_eq. unfold pending_work. simpl.
  rewrite sum_list_with_app. simpl. unfold registered_weight. simpl.
  destruct (action k) as [[d o]|]; rewrite ?length_add_timer; lia.
Qed.

Lemma work_react k o w :
  pending_work (react k o w) < pending_work w + scheduled_weight k.
Proof.
  destruct k as [onF onR d|i r|action dp attempts k r|action dp attempts k r];
    unfold react.
  - simpl. destruct o as [v|e].
    + destruct onF as [h|]; [destruct (h v)|];
        match goal with |- context [settle ?f ?o ?w] =>
          pose proof (work_settle f o w) end; lia.
    + destruct onR as [h|]; [destruct (h e)|];
        match goal with |- context [settle ?f ?o ?w] =>
          pose proof (work_settle f o w) end; lia.
  - simpl. destruct o as [v|e].
    + match goal with |- context [complete ?r ?w'] =>
        pose proof (work_complete r w') as Hc end.
      unfold pending_work in *. simpl in *. lia.
    + pose proof (work_settle r (Fail e) w). lia.
  - destruct o as [v|e].
    { pose proof (work_settle r (Fulfill v) w).
      pose proof (scheduled_weight_pos (Attempt action dp attempts k r)).
      lia. }
    destruct (S k <? attempts)%nat eqn:Hmore.
    + apply Nat.ltb_lt in Hmore. rewrite delay_then_again_eq.
      unfold pending_work. simpl. rewrite sum_list_with_app. simpl.
      unfold registered_weight. simpl. rewrite length_add_timer. lia.
    + pose proof (work_settle r (Fail e) w).
      pose proof (scheduled_weight_pos (Attempt action dp attempts k r)).
      lia.
  - pose proof (work_attempt action dp attempts k r w). simpl. lia.
Qed.

Lemma work_turn w :
  ¬ quiescent w → pending_work (turn w) < pending_work w.
Proof.
  intros Hnq. unfold turn.
  destruct (queue w) as [|[k o] q] eqn:Hq.
  - destruct (timers w) as [|[due [f o]] ts] eqn:Ht; [by destruct Hnq|].
    match goal with |- context [settle ?f ?o ?w'] =>
      pose proof (work_settle f o w') as Hs end.
    unfold pending_work in *. simpl in *. rewrite Hq, Ht. rewrite Hq in Hs.
    simpl in *. lia.
  - pose proof (work_react k o (set_queue q w)) as Hr.
    unfold pending_work in *. simpl in *. rewrite Hq. simpl. lia.
Qed.

Lemma turn_quiescent (w : world) : quiescent w → turn w = w.
Proof. intros [Hq Ht]. unfold turn. by rewrite Hq, Ht. Qed.

Lemma run_quiescent (n : nat) (w : world) : quiescent w → run n w = w.
Proof.
  intros Hw. induction n as [|n IH]; [done|].
  by rewrite run_turn, turn_quiescent.
Qed.

Lemma run_add (n m : nat) (w : world) : run (n + m) w = run m (run n w).
Proof. unfold run. by rewrite Nat.add_comm, Nat.iter_add. Qed.

Lemma quiescent_dec (w : world) : quiescent w ∨ ¬ quiescent w.
Proof.
  unfold quiescent. destruct (queue w); [|right; by intros [? _]].
  destruct (timers w); [by left|right; by intros [_ ?]].
Qed.

(** A world is at rest after as many turns as it has work pending. *)
Lemma comes_to_rest n : ∀ w, pending_work w ≤ n → quiescent (run n w).
Proof.
  induction n as [|n IH]; intros w Hw.
  - destruct (quiescent_dec w) as [|Hnq]; [done|].
    pose proof (work_turn w Hnq). lia.
  - destruct (quiescent_dec w) as [Hq|Hnq].
    + by rewrite run_quiescent.
    + rewrite run_turn. apply IH. pose proof (work_turn w Hnq). lia.
Qed.

Lemma at_rest_later w m :
  pending_work w ≤ m → run m w = run (pending_work w) w.
Proof.
  intros Hm. replace m with (pending_work w + (m - pending_work w)) by lia.
  rewrite run_add. apply run_quiescent. by apply comes_to_rest.
Qed.

(** *** The worlds an application can reach *)

Lemma settle_length f o w :
  length (futures (settle f o w)) = length (futures w).
Proof.
  unfold settle. destruct (futures w !! f) as [[[] ks]|]; try done.
  simpl. apply length_insert.
Qed.

Lemma register_length f k w :
  length (futures (register f k w)) = length (futures w).
Proof.
  unfold register. destruct (futures w !! f) as [[[] ks]|]; try done.
  simpl. apply length_insert.
Qed.

Lemma register_invocations f k w :
  invocations (register f k w) = invocations w.
Proof. unfold register. by destruct (futures w !! f) as [[[] ks]|]. Qed.

Lemma wf_grow w w' :
  apart [] [] [] w' →
  length (futures w) ≤ length (futures w') →
  (∃ l, invocations w' = invocations w ++ l ∧
        Forall (λ e : fid * nat, e.1 < length (futures w')) l) →
  wf_world w → wf_world w'.
Proof.
  intros Hap Hlen (l & Hl & Hnew) [_ Hlog]. split; [done|].
  rewrite Hl. apply Forall_app. split; [|done].
  eapply Forall_impl; [exact Hlog|]. simpl. lia.
Qed.

Lemma wf_same_log w w' :
  apart [] [] [] w' →
  length (futures w) ≤ length (futures w') →
  invocations w' = invocations w →
  wf_world w → wf_world w'.
Proof.
  intros Hap Hlen Hi. apply wf_grow; [done..|].
  exists []. by rewrite app_nil_r.
Qed.

Lemma wf_settle f o w : wf_world w → wf_world (settle f o w).
Proof.
  intros Hwf. eapply wf_same_log; [| | |exact Hwf].
  - apply apart_settle; [apply Hwf|]. left. apply not_elem_of_nil.
  - by rewrite settle_length.
  - apply settle_invocations.
Qed.

Lemma wf_register f k w :
  wf_world w → target k < length (futures w) → wf_world (register f k w).
Proof.
  intros Hwf Hk. eapply wf_same_log; [| | |exact Hwf].
  - apply apart_register; [apply Hwf|apply not_elem_of_nil|].
    split; [done|apply not_elem_of_nil].
  - by rewrite register_length.
  - apply register_invocations.
Qed.

Lemma wf_complete r w : wf_world w → wf_world (complete r w).
Proof.
  intros Hwf. unfold complete. destruct (slots w !! r) as [sl|]; [|done].
  destruct (collected sl); [|done]. by apply wf_settle.
Qed.

Lemma wf_new_future w : wf_world w → wf_world (new_future w).2.
Proof.
  intros Hwf. eapply wf_same_log; [| | |exact Hwf].
  - apply apart_new_future, Hwf.
  - simpl. rewrite length_app. lia.
  - done.
Qed.

Lemma wf_delay ms w : wf_world w → wf_world (delay ms w).2.
Proof.
  intros Hwf. eapply wf_same_log; [| | |exact Hwf].
  - apply apart_delay, Hwf.
  - unfold delay. simpl. rewrite length_app. lia.
  - done.
Qed.

Lemma wf_attempt action dp attempts k r w :
  wf_world w → r < length (futures w) →
  wf_world (attempt action dp attempts k r w).
Proof.
  intros Hwf Hr. eapply wf_grow; [| | |exact Hwf].
  - apply apart_attempt; [apply Hwf|]. split; [done|apply not_elem_of_nil].
  - rewrite attempt_eq. simpl. rewrite length_app. lia.
  - exists [(r, k)]. rewrite attempt_eq. simpl. split; [done|].
    apply Forall_singleton. simpl. rewrite length_app. lia.
Qed.

Lemma wf_react k o w :
  wf_world w → target k < length (futures w) → wf_world (react k o w).
Proof.
  intros Hwf Hk.
  destruct k as [onF onR d|i r|action dp attempts k r|action dp attempts k r];
    simpl in Hk; unfold react.
  - destruct o as [v|e].
    + destruct onF as [h|]; [destruct (h v)|]; by apply wf_settle.
    + destruct onR as [h|]; [destruct (h e)|]; by apply wf_settle.
  - destruct o as [v|e]; [|by apply wf_settle]. by apply wf_complete.
  - destruct o as [v|e]; [by apply wf_settle|].
    destruct (S k <? attempts)%nat; [|by apply wf_settle].
    pose proof (wf_delay (dp k) w Hwf) as Hd.
    assert (length (futures w) < length (futures (delay (dp k) w).2)) as Hl
      by (unfold delay; simpl; rewrite length_app; simpl; lia).
    destruct (delay (dp k) w) as [d w1]. simpl in *.
    apply wf_register; [done|]. simpl. lia.
  - by apply wf_attempt.
Qed.

Lemma wf_turn w : wf_world w → wf_world (turn w).
Proof.
  intros Hwf. pose proof Hwf as [(_ & (q1 & q2 & Hq & Hj) & _ & Htim) Hlog].
  unfold turn. destruct (queue w) as [|[k o] q] eqn:Hqw.
  - destruct (timers w) as [|[due [f o]] ts] eqn:Ht; [done|].
    apply wf_settle. destruct Hwf as [(HP & _ & Hreg & _) _].
    split; [|done]. unfold apart. simpl. split; [done|].
    split; [exists [], []; by rewrite Hqw|]. split; [done|].
    by apply Forall_cons in Htim as [_ Htim].
  - simpl in Hq. rewrite <- Hq in Hj.
    apply Forall_cons in Hj as [[Hk _] Hj]. simpl in Hk.
    apply wf_react; [|done]. destruct Hwf as [(HP & _ & Hreg & _) _].
    split; [|done]. unfold apart. simpl. split; [done|].
    split; [by exists [], q|done].
Qed.

Lemma wf_collects r (l : list (nat * fid)) : ∀ w,
  wf_world w → r < length (futures w) →
  wf_world (foldl (λ w' '(i, f), register f (Collect i r) w') w l).
Proof.
  induction l as [|[i f] l IH]; intros w Hwf Hr; [done|].
  simpl. apply IH.
  - by apply wf_register.
  - by rewrite register_length.
Qed.

Lemma wf_perform p w op : wf_world w → wf_world (perform p w op).
Proof.
  intros Hwf.
  destruct op as [|f v|f e|f onF onR|fs|ms|action attempts dp|fn args|];
    simpl.
  - by apply wf_new_future.
  - by apply wf_settle.
  - by apply wf_settle.
  - unfold then_. simpl. apply wf_register; [by apply wf_new_future|].
    simpl. rewrite length_app. simpl. lia.
  - unfold all. simpl. apply wf_complete, wf_collects.
    + eapply wf_same_log; [| | |exact (wf_new_future w Hwf)]; [|done..].
      eapply apart_same; [..|apply (wf_new_future w Hwf)]; done.
    + simpl. rewrite length_app. simpl. lia.
  - by apply wf_delay.
  - unfold retry. simpl. destruct attempts; [by apply wf_new_future|].
    apply wf_attempt; [by apply wf_new_future|].
    simpl. rewrite length_app. simpl. lia.
  - unfold invoke. destruct (fn args) as [[v|f]|e]; simpl; [|done|];
      by apply wf_settle, wf_new_future.
  - by apply wf_turn.
Qed.

Lemma wf_empty : wf_world empty_world.
Proof.
  split; [|done]. unfold apart. simpl.
  split; [done|]. split; [by exists [], []|]. split; [|done].
  intros f x Hf. by rewrite lookup_nil in Hf.
Qed.

Lemma wf_operations p ops : ∀ w, wf_world w → wf_world (foldl (perform p) w ops).
Proof.
  induction ops as [|op ops IH]; intros w Hwf; [done|].
  simpl. by apply IH, wf_perform.
Qed.

Lemma wf_reached p ops : wf_world (reached p ops).
Proof. apply wf_operations, wf_empty. Qed.

(** *** [retry] from start to rest *)

Lemma retry_starts action dp attempts w :
  wf_world w →
  ∃ ph, at_phase action dp attempts (length (futures w)) ph
                 (retry action attempts dp w).2.
Proof.
  intros [Hap Hlog]. unfold retry. simpl.
  set (r := length (futures w)).
  pose proof (apart_own_future [] [] [] w Hap) as Hown. simpl in Hown.
  fold r in Hown.
  assert (invocations_of r (set_futures (futures w ++ [MkFuture PENDING []]) w)
          = []) as Hinv.
  { unfold invocations_of. simpl.
    replace (filter (λ e : fid * nat, e.1 = r) (invocations w)) with
      (@nil (fid * nat)); [done|].
    symmetry. clear -Hlog. fold r in Hlog.
    induction Hlog as [|e l He Hl IH]; [done|].
    rewrite filter_cons_False by lia. done. }
  destruct attempts as [|a].
  - exists Over. cbn [at_phase]. split_and!; [done| |done].
    unfold state. simpl. subst r. by rewrite lookup_new.
  - eexists.
    apply (attempt_own action dp (S a) r 0
             (set_futures (futures w ++ [MkFuture PENDING []]) w)).
    + done.
    + simpl. subst r. apply lookup_new.
    + lia.
    + intros i Hi. lia.
    + done.
Qed.

(** C6.  Whatever the application has done before and whatever else is
    going on, [retry] invokes the action at most [attempts] times; when an
    attempt succeeds after failures only, the result ends up fulfilled with
    that attempt's value, the action having been invoked up to that attempt
    and no more; when every attempt fails, the result ends up rejected with
    the reason of the last one. *)
Theorem retry_attempts (p : policy) (ops : list operation) (action : script)
    (attempts : nat) (delayPolicy : nat → nat) :
  let w := reached p ops in
  let r := (retry action attempts delayPolicy w).1 in
  let w1 := (retry action attempts delayPolicy w).2 in
  (∀ n, length (invocations_of r (run n w1)) ≤ attempts) ∧
  (∀ j d v,
     j < attempts → action j = Some (d, Fulfill v) →
     (∀ i, i < j → ∃ d' e, action i = Some (d', Fail e)) →
     ∃ n, ∀ m, n ≤ m →
       state r (run m w1) = Some (FULFILLED v) ∧
       invocations_of r (run m w1) = seq 0 (S j)) ∧
  (∀ d e,
     0 < attempts →
     (∀ i, i < attempts → ∃ d' e', action i = Some (d', Fail e')) →
     action (attempts - 1) = Some (d, Fail e) →
     ∃ n, ∀ m, n ≤ m →
       state r (run m w1) = Some (REJECTED e) ∧
       invocations_of r (run m w1) = seq 0 attempts).
Proof.
  intros w r w1.
  destruct (retry_starts action delayPolicy attempts w (wf_reached p ops))
    as [ph0 Hph0].
  change (length (futures w)) with r in Hph0. fold w1 in Hph0.
  assert (∀ m, pending_work w1 ≤ m →
            state r (run m w1) = Some (foreseen action 0 attempts).1 ∧
            invocations_of r (run m w1)
            = seq 0 (foreseen action 0 attempts).2) as Hrest.
  { intros m Hm. rewrite (at_rest_later w1 m Hm).
    destruct (steps action delayPolicy attempts r (pending_work w1) ph0 w1 Hph0)
      as [ph Hph].
    eapply phase_quiescent; [exact Hph|]. by apply comes_to_rest. }
  split; [|split].
  - intros n.
    destruct (steps action delayPolicy attempts r n ph0 w1 Hph0) as [ph Hph].
    by eapply phase_bound.
  - intros j d v Hj Hok Hfail. exists (pending_work w1). intros m Hm.
    destruct (Hrest m Hm) as [Hs Hi]. rewrite Hs, Hi.
    by rewrite (foreseen_first_success action attempts 0 j d v).
  - intros d e Hpos Hfail Hlast. exists (pending_work w1). intros m Hm.
    destruct (Hrest m Hm) as [Hs Hi]. rewrite Hs, Hi.
    destruct attempts as [|a]; [lia|].
    rewrite (foreseen_exhausted action a 0 d e); [done|done|].
    by rewrite Nat.sub_1_r in Hlast.
Qed.

End RetryFacts.

(** * Further properties of [Statistics.js] *)

(** ** Identifiers *)

Lemma sorted_of_Sorted (l : list jsdata) :
  StronglySorted sort_le l → sorted l = l.
Proof.
  induction 1 as [|x l Hl IH Hx]; [done|].
  simpl. rewrite IH. destruct l as [|y l']; [done|].
  simpl. apply Forall_cons in Hx as [Hxy _]. unfold sort_le in Hxy.
  by destruct (SortCompare x y).
Qed.

Lemma sorted_idempotent (l : list jsdata) : sorted (sorted l) = sorted l.
Proof. apply sorted_of_Sorted, sorted_Sorted. Qed.

(** X2.  Sorting the keys beforehand changes nothing: an array and its sorted
    arrangement have the same identifier, whatever its members are. *)
Theorem id_of_sorted_keys (k1 k2 : jsvalue) (h : heap) (elems : list jsdata) :
  deref h k1 = JArray elems →
  deref h k2 = JArray (sorted elems) →
  (__id__ k1 h).1 = (__id__ k2 h).1.
Proof.
  intros H1 H2. rewrite (id_array _ _ _ H1), (id_array _ _ _ H2). simpl.
  by rewrite sorted_idempotent.
Qed.

Lemma strings_separated (l : list jsdata) : Forall is_string l → separated l.
Proof.
  intros Hl x y Hx Hy. rewrite Forall_forall in Hl.
  pose proof (Hl x Hx) as Hsx. pose proof (Hl y Hy) as Hsy.
  destruct x; try done. destruct y; try done.
  unfold SortCompare; simpl. intros Hc.
  by apply String.compare_eq_iff in Hc as ->.
Qed.

(** X3.  Arrays of strings: every arrangement of the same strings has the same
    identifier. *)
Theorem id_of_string_keys (k1 k2 : jsvalue) (h : heap) (a1 a2 : list jsdata) :
  deref h k1 = JArray a1 → deref h k2 = JArray a2 →
  Forall is_string a1 → a1 ≡ₚ a2 →
  (__id__ k1 h).1 = (__id__ k2 h).1.
Proof.
  intros H1 H2 Hs Hp.
  eapply id_array_Permutation; [done..|]. by apply strings_separated.
Qed.

Lemma Number_toString_first (n : Z) :
  kind_of_id (Number_toString n) = KOther.
Proof.
  unfold Number_toString, NilZero.string_of_int.
  destruct (Z.to_int n) as [d|d]; [|done]. by destruct d.
Qed.

Lemma Number_toString_numeric (n : Z) :
  numeric_start (Number_toString n) = true.
Proof.
  unfold Number_toString, NilZero.string_of_int.
  destruct (Z.to_int n) as [d|d]; [|done]. by destruct d.
Qed.

Lemma kind_of_id_join (x : string) (l : list string) (c : ascii) :
  first_char x = Some c →
  kind_of_id (join "," (x :: l)) = kind_of_id x.
Proof.
  intros Hx. unfold kind_of_id.
  by rewrite (first_char_join _ _ _ _ Hx), Hx.
Qed.

Lemma id_kind (keys : jsvalue) (h : heap) :
  kind_of_id (str (__id__ keys h).1) = kind_of (deref h keys).
Proof.
  destruct (deref h keys) as [| |b|n|s|elems|props] eqn:Hk.
  6: { by rewrite (id_array _ _ _ Hk). }
  6: { rewrite (id_object _ _ _ Hk). simpl.
       destruct (sorted (names props)) as [|n l] eqn:Hs; [done|].
       destruct (sorted_names props n) as [k ->]; [rewrite Hs; by left|].
       cbn [map]. by erewrite kind_of_id_join. }
  all: rewrite id_primitive by (rewrite ?Hk; done); rewrite Hk;
    cbn [fst str]; rewrite app_empty_r; try done.
  - by destruct b.
  - apply Number_toString_first.
Qed.

(** X4.  Keys of different kinds never share an identifier: an array, a string
    or object, and any other key (a number, [undefined], [null], [true] or
    [false]) are told apart by the first character. *)
Theorem id_kinds_apart (k1 k2 : jsvalue) (h1 h2 : heap) :
  kind_of (deref h1 k1) ≠ kind_of (deref h2 k2) →
  str (__id__ k1 h1).1 ≠ str (__id__ k2 h2).1.
Proof.
  intros Hk Hid. apply Hk. by rewrite <- !id_kind, Hid.
Qed.

(** *** String keys *)

Lemma app_assoc_string (s1 s2 s3 : string) :
  (s1 +:+ s2) +:+ s3 = s1 +:+ (s2 +:+ s3).
Proof.
  induction s1 as [|c s1 IH]; [done|].
  change (String c ((s1 +:+ s2) +:+ s3) = String c (s1 +:+ (s2 +:+ s3))).
  by f_equal.
Qed.

Lemma unquote_quote_char (c : ascii) (r : string) :
  unquote_char (quote_char c +:+ r) = Some (c, r).
Proof.
  destruct c as [[] [] [] [] [] [] [] []]; reflexivity.
Qed.

Lemma quote_chars_inj (s1 s2 : string) :
  quote_chars s1 +:+ dquote = quote_chars s2 +:+ dquote → s1 = s2.
Proof.
  revert s2. induction s1 as [|c1 s1 IH]; intros [|c2 s2] Heq.
  - done.
  - apply (f_equal unquote_char) in Heq.
    change (quote_chars (String c2 s2))
      with (quote_char c2 +:+ quote_chars s2) in Heq.
    rewrite app_assoc_string, unquote_quote_char in Heq. done.
  - apply (f_equal unquote_char) in Heq.
    change (quote_chars (String c1 s1))
      with (quote_char c1 +:+ quote_chars s1) in Heq.
    rewrite app_assoc_string, unquote_quote_char in Heq. done.
  - apply (f_equal unquote_char) in Heq.
    change (quote_chars (String c1 s1))
      with (quote_char c1 +:+ quote_chars s1) in Heq.
    change (quote_chars (String c2 s2))
      with (quote_char c2 +:+ quote_chars s2) in Heq.
    rewrite !app_assoc_string, !unquote_quote_char in Heq.
    inversion Heq; subst. f_equal. by apply IH.
Qed.

Lemma QuoteJSONString_inj (s1 s2 : string) :
  QuoteJSONString s1 = QuoteJSONString s2 → s1 = s2.
Proof.
  unfold QuoteJSONString, dquote. intros Heq.
  apply quote_chars_inj. by inversion Heq.
Qed.

Lemma id_string (s : string) (h : heap) :
  __id__ (Imm (JString s)) h = (Some (QuoteJSONString s), h).
Proof. unfold __id__. simpl. by rewrite app_empty_r. Qed.

(** *** Keys that are not arrays or objects *)

Lemma to_int_proper (n : Z) :
  Z.to_int n ≠ Decimal.Pos Decimal.Nil ∧ Z.to_int n ≠ Decimal.Neg Decimal.Nil.
Proof.
  destruct n as [|p|p]; simpl; split; try discriminate;
    intros Heq; inversion Heq as [Hp];
    by apply Unsigned.to_uint_nonnil in Hp.
Qed.

Lemma Number_toString_inj (n1 n2 : Z) :
  Number_toString n1 = Number_toString n2 → n1 = n2.
Proof.
  unfold Number_toString. intros Heq.
  apply (f_equal NilZero.int_of_string) in Heq.
  destruct (to_int_proper n1) as [Hp1 Hn1].
  destruct (to_int_proper n2) as [Hp2 Hn2].
  rewrite !NilZero.isi in Heq by done.
  inversion Heq as [Hd].
  by rewrite <- (DecimalZ.of_to n1), <- (DecimalZ.of_to n2), Hd.
Qed.

(** X5.  Among [undefined], [null], the booleans, the integers below [2^53] in
    absolute value and the strings, different keys have different
    identifiers. *)
Theorem id_primitive_inj (k1 k2 : jsvalue) (h1 h2 : heap) :
  primitive (deref h1 k1) → primitive (deref h2 k2) →
  str (__id__ k1 h1).1 = str (__id__ k2 h2).1 →
  deref h1 k1 = deref h2 k2.
Proof.
  intros Hp1 Hp2 Hid.
  assert (kind_of (deref h1 k1) = kind_of (deref h2 k2)) as Hkind
    by (by rewrite <- !id_kind, Hid).
  rewrite (id_primitive k1) in Hid by (by destruct (deref h1 k1)).
  rewrite (id_primitive k2) in Hid by (by destruct (deref h2 k2)).
  cbn [fst str] in Hid. rewrite !app_empty_r in Hid.
  destruct (deref h1 k1) as [| |b1|n1|s1|?|?]; try done;
    destruct (deref h2 k2) as [| |b2|n2|s2|?|?]; try done;
    try discriminate Hkind; simpl in Hid;
    try (apply (f_equal numeric_start) in Hid;
         rewrite ?Number_toString_numeric in Hid;
         repeat match goal with b : bool |- _ => destruct b end;
         discriminate).
  - by destruct b2.
  - by destruct b2.
  - by destruct b1.
  - by destruct b1.
  - by destruct b1, b2.
  - f_equal. by apply Number_toString_inj.
  - f_equal. by apply QuoteJSONString_inj.
Qed.

(** ** The table and the accumulator objects *)

Section MoreStatisticsFacts.

Context `{Accumulator}.

Implicit Types (s : state) (k keys : jsvalue).

Lemma stat_objects_lookup keys s st' :
  st' < length (objects s) →
  objects (stat keys s).2 !! st' = objects s !! st'.
Proof.
  intros Hst. rewrite stat_unfold.
  destruct (__stats__ s !! entry keys s); simpl; [done|].
  by apply lookup_app_l.
Qed.

Lemma stat_objects_length keys s :
  length (objects s) ≤ length (objects (stat keys s).2).
Proof.
  rewrite stat_unfold.
  destruct (__stats__ s !! entry keys s); simpl; [done|].
  rewrite length_app. lia.
Qed.

Lemma call_objects_other m st args s st' :
  st' ≠ st → objects (call m st args s).2 !! st' = objects s !! st'.
Proof.
  intros Hne. unfold call. destruct (objects s !! st); [|done].
  destruct (Statistic_call _ _ _ _). simpl.
  by apply list_lookup_insert_ne.
Qed.

Lemma stat_table_inj keys s : wf s → table_inj s → table_inj (stat keys s).2.
Proof.
  intros Hwf Hinj. rewrite stat_unfold.
  destruct (__stats__ s !! entry keys s) eqn:He; simpl; [done|].
  intros id1 id2 st. simpl. rewrite !lookup_insert.
  intros Hl1 Hl2.
  destruct (decide (entry keys s = id1)) as [E1|E1];
    destruct (decide (entry keys s = id2)) as [E2|E2];
    simplify_eq; try done.
  - apply Hwf in Hl2. simpl in Hl2. lia.
  - apply Hwf in Hl1. simpl in Hl1. lia.
  - by eapply Hinj.
Qed.

(** X7.  [stat] returns the accumulator that the table holds under the identifier
    of the keys once the call is over, and that accumulator exists. *)
Theorem stat_returns_stored keys s :
  wf s →
  __stats__ (stat keys s).2 !! entry keys s = Some (stat keys s).1 ∧
  is_Some (objects (stat keys s).2 !! (stat keys s).1) ∧
  wf (stat keys s).2.
Proof.
  intros Hwf. split; [apply stat_lookup|]. split; [|by apply stat_wf].
  apply lookup_lt_is_Some_2. by apply stat_ref.
Qed.

Lemma step_bundle_inv n s s' : step s s' → bundle_inv n s → bundle_inv n s'.
Proof.
  intros [k s0|m o args s0] (Hwf & Hinj & Hsur & Hsize).
  - split; [by apply stat_wf|]. split; [by apply stat_table_inj|].
    rewrite stat_unfold.
    destruct (__stats__ s0 !! entry k s0) eqn:He; simpl; [done|].
    split.
    + intros st Hn Hst. rewrite length_app in Hst. simpl in Hst.
      destruct (decide (st = length (objects s0))) as [->|Hne].
      * exists (entry k s0). simpl. apply lookup_insert_eq.
      * destruct (Hsur st) as [id Hid]; [done|lia|].
        exists id. simpl. rewrite lookup_insert_ne; [done|]. congruence.
    + rewrite map_size_insert_None by done. rewrite length_app. simpl. lia.
  - split; [by apply call_wf|]. unfold table_inj, stored.
    rewrite call_table, call_objects_length. done.
Qed.

Lemma new_bundle_inv objs h : bundle_inv (length objs) (Statistics objs h).
Proof.
  split; [apply wf_Statistics|]. split; [|split].
  - intros id1 id2 st Hid. simpl in Hid. by rewrite lookup_empty in Hid.
  - simpl. intros st Hn Hst. lia.
  - simpl. by rewrite map_size_empty.
Qed.

(** X8.  Whatever lookups and method calls a bundle has gone through since it was
    created, its table refers to existing accumulators, to each under one
    identifier only; every accumulator created since is stored in it, and it
    has as many entries as accumulators were created. *)
Theorem bundle_keeps_its_table objs h s :
  rtc step (Statistics objs h) s →
  wf s ∧ table_inj s ∧
  (∀ st, length objs ≤ st → st < length (objects s) → stored st s) ∧
  size (__stats__ s) + length objs = length (objects s).
Proof.
  intros Hsteps. change (bundle_inv (length objs) s).
  pose proof (new_bundle_inv objs h) as Hinv.
  induction Hsteps as [s|s s1 s2 Hstep _ IH]; [done|].
  apply IH. by eapply step_bundle_inv.
Qed.

(** X6.  Two different strings as keys get two entries and, in a bundle whose
    table has each accumulator once, two accumulators. *)
Theorem string_keys_apart (s1 s2 : string) s :
  s1 ≠ s2 → wf s → table_inj s →
  entry (Imm (JString s1)) s ≠ entry (Imm (JString s2)) s ∧
  (stat (Imm (JString s2)) (stat (Imm (JString s1)) s).2).1
  ≠ (stat (Imm (JString s1)) s).1.
Proof.
  intros Hne Hwf Hinj.
  assert (∀ s', entry (Imm (JString s1)) s' ≠ entry (Imm (JString s2)) s')
    as Hentry.
  { intros s' Heq. unfold entry in Heq. rewrite !id_string in Heq.
    simpl in Heq. by apply Hne, QuoteJSONString_inj. }
  split; [apply Hentry|].
  set (sa := (stat (Imm (JString s1)) s).2).
  intros Heq.
  assert (wf sa) as Hwfa by (by apply stat_wf).
  assert (table_inj (stat (Imm (JString s2)) sa).2) as Hinjb
    by (by apply stat_table_inj, stat_table_inj).
  apply (Hentry sa).
  apply (Hinjb _ _ (stat (Imm (JString s1)) s).1).
  - apply stat_preserves_entries.
    replace (entry (Imm (JString s1)) sa) with (entry (Imm (JString s1)) s)
      by (unfold entry; by rewrite !id_string).
    apply stat_lookup.
  - rewrite <- Heq. apply stat_lookup.
Qed.

(** A call through a shortcut leaves every accumulator but the one of its
    keys as it was. *)
Lemma forward_frame m keys args s :
  others_kept (stat keys s).1 s
              (call m (stat keys s).1 args (stat keys s).2).2.
Proof.
  intros st' Hst Hne.
  rewrite call_objects_other by done. by apply stat_objects_lookup.
Qed.

(** *** [addObject] *)

Lemma stat_string_store (n : string) s :
  store (stat (Imm (JString n)) s).2 = store s.
Proof. by rewrite stat_store, id_string. Qed.

Lemma stat_table_subseteq keys s : __stats__ s ⊆ __stats__ (stat keys s).2.
Proof.
  apply map_subseteq_spec. intros id st. apply stat_preserves_entries.
Qed.

Lemma addObject_member_only_adds name member data s :
  __stats__ s ⊆ __stats__ (addObject_member name member data s).2 ∧
  store (addObject_member name member data s).2 = store s ∧
  length (objects s) ≤ length (objects (addObject_member name member data s).2).
Proof.
  unfold addObject_member.
  destruct (Array_isArray member);
    rewrite ?addAll_forwards, ?add_forwards;
    rewrite call_table, call_store, call_objects_length, stat_string_store;
    auto using stat_table_subseteq, stat_objects_length.
Qed.

Lemma addObject_loop_only_adds members data s :
  __stats__ s ⊆ __stats__ (addObject_loop members data s).2 ∧
  store (addObject_loop members data s).2 = store s ∧
  length (objects s) ≤ length (objects (addObject_loop members data s).2).
Proof.
  revert s. induction members as [|[name member] rest IH]; intros s; [done|].
  simpl.
  destruct (addObject_member_only_adds name member data s) as (Ht & Hs & Ho).
  destruct (addObject_member name member data s) as [[r|e] s1];
    simpl in *; [|done].
  destruct (IH s1) as (Ht' & Hs' & Ho').
  split; [by etrans|]. split; [congruence|lia].
Qed.

(** X9.  [addObject] only ever adds: whether it returns or raises, every entry of
    the table is still there with the same accumulator, no accumulator object
    has gone, and the store of arrays and objects is exactly as it was. *)
Theorem addObject_only_adds obj data s :
  __stats__ s ⊆ __stats__ (addObject obj data s).2 ∧
  store (addObject obj data s).2 = store s ∧
  length (objects s) ≤ length (objects (addObject obj data s).2).
Proof.
  unfold addObject. destruct (raiseIf _ _); [|done].
  pose proof (addObject_loop_only_adds
                (enumerate (deref (store s) obj)) data s) as Hl.
  by destruct (addObject_loop _ _ _) as [[r|e] s'].
Qed.

Lemma addObject_member_entry name member data s :
  __stats__ (addObject_member name member data s).2 !! QuoteJSONString name
  = Some (stat (Imm (JString name)) s).1.
Proof.
  assert (entry (Imm (JString name)) s = QuoteJSONString name) as He
    by (unfold entry; by rewrite id_string).
  unfold addObject_member.
  destruct (Array_isArray member);
    rewrite ?addAll_forwards, ?add_forwards;
    rewrite call_table, <- He; apply stat_lookup.
Qed.

Lemma addObject_loop_entries members data s s' name member :
  addObject_loop members data s = (Return (), s') →
  (name, member) ∈ members →
  is_Some (__stats__ s' !! QuoteJSONString name).
Proof.
  revert s. induction members as [|[n m] rest IH]; intros s Hloop Hin.
  { by apply elem_of_nil in Hin. }
  simpl in Hloop.
  pose proof (addObject_member_entry n m data s) as Hentry.
  destruct (addObject_member n m data s) as [[r|e] s1]; [|done].
  apply elem_of_cons in Hin as [Heq|Hin]; [|by eapply IH].
  inversion Heq; subst.
  pose proof (addObject_loop_steps rest data s1) as Hsteps.
  rewrite Hloop in Hsteps. simpl in *.
  eexists. by eapply steps_preserve_entries.
Qed.

Lemma addObject_only_adds_aux obj data s :
  store (addObject obj data s).2 = store s ∧
  ((addObject obj data s).1 = Return this →
   ∀ name member, (name, member) ∈ enumerate (deref (store s) obj) →
     is_Some (__stats__ (addObject obj data s).2 !! QuoteJSONString name)).
Proof.
  unfold addObject. destruct (raiseIf _ _); [|done].
  pose proof (addObject_loop_only_adds
                (enumerate (deref (store s) obj)) data s) as (_ & Hs & _).
  destruct (addObject_loop _ _ _) as [[[]|e] s'] eqn:Hloop; [|done].
  split; [done|]. intros _ name member Hin. simpl.
  by eapply addObject_loop_entries.
Qed.

(** X10.  One stat per member: when [addObject] returns, the table has an entry
    under the JSON text of the name of every enumerable member of [obj]. *)
Theorem addObject_one_stat_per_member obj data s name member :
  (addObject obj data s).1 = Return this →
  (name, member) ∈ enumerate (deref (store s) obj) →
  is_Some (__stats__ (addObject obj data s).2 !! QuoteJSONString name).
Proof.
  unfold addObject. destruct (raiseIf _ _); [|done].
  destruct (addObject_loop _ _ _) as [[[]|e] s'] eqn:Hloop; [|done].
  intros _ Hin. simpl. by eapply addObject_loop_entries.
Qed.

Lemma stat_reuses keys s :
  is_Some (__stats__ s !! entry keys s) →
  __stats__ (stat keys s).2 = __stats__ s ∧
  objects (stat keys s).2 = objects s.
Proof. intros [st Hst]. by rewrite (stat_existing _ _ _ Hst). Qed.

Lemma addObject_member_reuses name member data s :
  is_Some (__stats__ s !! QuoteJSONString name) →
  __stats__ (addObject_member name member data s).2 = __stats__ s ∧
  length (objects (addObject_member name member data s).2)
  = length (objects s).
Proof.
  intros Hin.
  assert (entry (Imm (JString name)) s = QuoteJSONString name) as He
    by (unfold entry; by rewrite id_string).
  rewrite <- He in Hin. destruct (stat_reuses _ _ Hin) as [Ht Ho].
  unfold addObject_member.
  destruct (Array_isArray member);
    rewrite ?addAll_forwards, ?add_forwards;
    by rewrite call_table, call_objects_length, Ht, Ho.
Qed.

Lemma addObject_loop_reuses members data s :
  (∀ name member, (name, member) ∈ members →
                  is_Some (__stats__ s !! QuoteJSONString name)) →
  __stats__ (addObject_loop members data s).2 = __stats__ s ∧
  length (objects (addObject_loop members data s).2) = length (objects s).
Proof.
  revert s. induction members as [|[n m] rest IH]; intros s Hall; [done|].
  simpl.
  destruct (addObject_member_reuses n m data s) as [Ht Ho].
  { apply (Hall n m). by left. }
  destruct (addObject_member n m data s) as [[r|e] s1]; simpl in *; [|done].
  destruct (IH s1) as [Ht' Ho'].
  { intros name member Hin. rewrite Ht. apply (Hall name member). by right. }
  split; congruence.
Qed.

(** X11.  Adding the same object again reuses the accumulators: once [addObject]
    has returned, a second [addObject] of the same object, with any data,
    creates no accumulator and leaves the table as it is. *)
Theorem addObject_again obj data data' s :
  (addObject obj data s).1 = Return this →
  __stats__ (addObject obj data' (addObject obj data s).2).2
  = __stats__ (addObject obj data s).2 ∧
  length (objects (addObject obj data' (addObject obj data s).2).2)
  = length (objects (addObject obj data s).2).
Proof.
  intros Hret.
  destruct (addObject_only_adds_aux obj data s) as [Hstore Hentries].
  set (s1 := (addObject obj data s).2) in *.
  unfold addObject. rewrite Hstore.
  destruct (raiseIf _ _); [|done].
  pose proof (addObject_loop_reuses
                (enumerate (deref (store s) obj)) data' s1) as Hl.
  specialize (Hl (Hentries Hret)).
  by destruct (addObject_loop (enumerate (deref (store s) obj)) data' s1)
    as [[r|e] s'].
Qed.

Lemma addObject_loop_app pre post data s :
  addObject_loop (pre ++ post) data s
  = match addObject_loop pre data s with
    | (Return _, s0) => addObject_loop post data s0
    | (Throw e, s0) => (Throw e, s0)
    end.
Proof.
  revert s. induction pre as [|[n m] pre IH]; intros s; [done|].
  simpl. destruct (addObject_member n m data s) as [[r|e] s1]; [|done].
  apply IH.
Qed.

(** X12.  [addObject] stops at the first member whose addition raises: the error
    is the one that addition raised, the members after it are not looked at,
    and what was done up to the error is not undone. *)
Theorem addObject_stops_at_first_error obj data s pre name member post e s0 s1 :
  ToBoolean (deref (store s) obj) = true →
  enumerate (deref (store s) obj) = pre ++ (name, member) :: post →
  addObject_loop pre data s = (Return (), s0) →
  addObject_member name member data s0 = (Throw e, s1) →
  addObject obj data s = (Throw e, s1).
Proof.
  intros Ht Hen Hpre Hm. unfold addObject. rewrite Ht, Hen. simpl.
  rewrite addObject_loop_app, Hpre. simpl. by rewrite Hm.
Qed.

End MoreStatisticsFacts.

(** ** [addStatistic] *)

Section MergeFacts.

Context `{Mergeable}.

Implicit Types (s : state) (k keys : jsvalue).

(** X13.  [addStatistic] merges its argument into the accumulator the bundle
    itself holds under the keys: for an argument that is not stored in the
    table, the receiver of the accumulator's [addStatistic] is the object
    that [stat] returns for the keys, another object than the argument; it
    is called with the argument, its result is the result of the call, the
    table holds it under the identifier of the keys, and the argument is
    still not stored (the documentation says: this does not put the argument
    as a statistic of this object). *)
Theorem addStatistic_merges_into_own (a : loc) keys s given :
  wf s →
  objects s !! a = Some given →
  ¬ stored a s →
  let k := match keys with
           | Imm JUndefined => Statistic_keys given
           | _ => keys
           end in
  let st := (stat k s).1 in
  let s' := (addStatistic a keys s).2 in
  st ≠ a ∧
  __stats__ s' !! entry k s = Some st ∧
  (∃ o, objects (stat k s).2 !! st = Some o ∧
        (addStatistic a keys s).1
        = (Statistic_addStatistic (Some given) (store (stat k s).2) o).1 ∧
        objects s' !! st
        = Some (Statistic_addStatistic (Some given) (store (stat k s).2) o).2) ∧
  ¬ stored a s'.
Proof.
  intros Hwf Ha Hout k st s'. subst st s'. unfold addStatistic. rewrite Ha.
  fold k.
  assert (a < length (objects s)) as Hlt by (by eapply lookup_lt_Some).
  assert ((stat k s).1 ≠ a) as Hne.
  { rewrite stat_unfold.
    destruct (__stats__ s !! entry k s) as [st0|] eqn:He; simpl; [|lia].
    intros ->. apply Hout. by exists (entry k s). }
  assert (¬ stored a (stat k s).2) as Hout1.
  { intros [id Hid]. rewrite stat_unfold in Hid.
    destruct (__stats__ s !! entry k s) as [st0|] eqn:He; simpl in Hid.
    - apply Hout. by exists id.
    - destruct (decide (entry k s = id)) as [<-|Hd].
      + rewrite lookup_insert_eq in Hid. inversion Hid. lia.
      + rewrite lookup_insert_ne in Hid by done. apply Hout. by exists id. }
  pose proof (stat_lookup k s) as Hl.
  pose proof (stat_ref k s Hwf) as Hr.
  destruct (stat k s) as [st s1]. simpl in *.
  destruct (lookup_lt_is_Some_2 _ _ Hr) as [o Ho]. rewrite Ho.
  rewrite decide_False by done.
  destruct (Statistic_addStatistic (Some given) (store s1) o) as [r o']
    eqn:Hm.
  simpl. split; [done|]. split; [done|]. split; [|done].
  exists o. rewrite Hm. simpl. split; [done|]. split; [done|].
  by apply list_lookup_insert_eq.
Qed.

(** X14.  Without [keys], [addStatistic] uses the keys of its argument: it does
    what it does when given those keys, and the table then has an entry under
    their identifier. *)
Theorem addStatistic_default_keys (a : loc) s given :
  objects s !! a = Some given →
  addStatistic a (Imm JUndefined) s = addStatistic a (Statistic_keys given) s ∧
  is_Some (__stats__ (addStatistic a (Imm JUndefined) s).2
             !! entry (Statistic_keys given) s).
Proof.
  intros Ha. split.
  - unfold addStatistic. rewrite Ha.
    by destruct (Statistic_keys given) as [[]|].
  - unfold addStatistic. rewrite Ha.
    pose proof (stat_lookup (Statistic_keys given) s) as Hl.
    destruct (stat (Statistic_keys given) s) as [st s1]. simpl in *.
    destruct (objects s1 !! st) as [o|]; [|by eexists].
    destruct (Statistic_addStatistic _ _ _) as [r o']. simpl. by eexists.
Qed.

End MergeFacts.

(** ** The further properties at work *)

Lemma id_of_sorted_keys_witness :
  (__id__ (Ref 0) keys_store).1 = (__id__ (Ref 1) keys_store).1.
Proof.
  apply (id_of_sorted_keys (Ref 0) (Ref 1) keys_store unsorted_keys);
    reflexivity.
Defined.

Lemma id_of_string_keys_witness :
  (__id__ (Ref 2) keys_store).1 = (__id__ (Ref 3) keys_store).1.
Proof.
  apply (id_of_string_keys (Ref 2) (Ref 3) keys_store
           [JString "y"; JString "x"] [JString "x"; JString "y"]).
  - reflexivity.
  - reflexivity.
  - repeat constructor.
  - apply Permutation_swap.
Defined.

Lemma id_kinds_apart_witness :
  kind_of (JNumber 1) = KOther ∧ kind_of (JString "1") = KText ∧
  str (__id__ (Imm (JNumber 1)) []).1 ≠ str (__id__ (Imm (JString "1")) []).1.
Proof.
  split; [reflexivity|]. split; [reflexivity|].
  apply (id_kinds_apart (Imm (JNumber 1)) (Imm (JString "1")) [] []).
  discriminate.
Defined.

Lemma id_primitive_inj_witness :
  (__id__ (Imm (JNumber 10)) []).1 = Some "10" ∧
  str (__id__ (Imm (JNumber 10)) []).1 ≠ str (__id__ (Imm (JNumber 1)) []).1.
Proof.
  split; [reflexivity|]. intros Heq.
  apply (id_primitive_inj (Imm (JNumber 10)) (Imm (JNumber 1)) [] []) in Heq.
  - discriminate.
  - reflexivity.
  - reflexivity.
Defined.

Lemma id_not_inherited_witness :
  "toString" ∈ Object_prototype ∧
  str (__id__ (Imm (JString "toString")) []).1 ∉ Object_prototype.
Proof.
  split; [compute_done|].
  apply (id_not_inherited (Imm (JString "toString")) []).
Defined.

Lemma stat_returns_stored_witness :
  __stats__ (stat k_a demo).2 !! entry k_a demo = Some (stat k_a demo).1 ∧
  is_Some (objects (stat k_a demo).2 !! (stat k_a demo).1) ∧
  wf (stat k_a demo).2.
Proof. apply (stat_returns_stored k_a demo), wf_Statistics. Defined.

Lemma bundle_keeps_its_table_witness :
  let s := (add k_a (Imm (JNumber 1)) (Imm JNull) demo).2 in
  wf s ∧ table_inj s ∧
  (∀ st, 0 ≤ st → st < length (objects s) → stored st s) ∧
  size (__stats__ s) + 0 = length (objects s).
Proof.
  apply (bundle_keeps_its_table [] demo_store).
  apply (add_steps k_a (Imm (JNumber 1)) (Imm JNull) demo).
Defined.

Lemma table_inj_new objs h : table_inj (Statistics objs h).
Proof. intros id1 id2 st Hid. simpl in Hid. by rewrite lookup_empty in Hid. Defined.

Lemma string_keys_apart_witness :
  entry (Imm (JString "a")) demo ≠ entry (Imm (JString "b")) demo ∧
  (stat (Imm (JString "b")) (stat (Imm (JString "a")) demo).2).1
  ≠ (stat (Imm (JString "a")) demo).1.
Proof.
  apply (string_keys_apart "a" "b" demo).
  - discriminate.
  - apply wf_Statistics.
  - apply table_inj_new.
Defined.

Lemma addObject_one_stat_per_member_witness :
  is_Some (__stats__ (addObject demo_obj (Imm JNull) demo).2
             !! QuoteJSONString "b").
Proof.
  apply (addObject_one_stat_per_member demo_obj (Imm JNull) demo "b"
           (JArray [JNumber 2; JNumber 3])).
  - reflexivity.
  - simpl. set_solver.
Defined.

Lemma addObject_again_witness :
  __stats__ (addObject demo_obj (Imm (JNumber 5))
               (addObject demo_obj (Imm JNull) demo).2).2
  = __stats__ (addObject demo_obj (Imm JNull) demo).2 ∧
  length (objects (addObject demo_obj (Imm (JNumber 5))
                     (addObject demo_obj (Imm JNull) demo).2).2)
  = length (objects (addObject demo_obj (Imm JNull) demo).2).
Proof.
  apply (addObject_again demo_obj (Imm JNull) (Imm (JNumber 5)) demo).
  reflexivity.
Defined.

Lemma addObject_stops_at_first_error_witness :
  ∃ s1, @addObject Picky mixed_obj (Imm JNull) picky
        = (Throw "cannot be added", s1) ∧
        size (__stats__ s1) = 2 ∧
        __stats__ s1 !! QuoteJSONString "c" = None.
Proof.
  eexists. split.
  - eapply (@addObject_stops_at_first_error Picky mixed_obj (Imm JNull) picky
             [("a", JNumber 1)] "b" (JString "x") [("c", JNumber 3)]);
      reflexivity.
  - vm_compute. done.
Defined.

Lemma loose_not_stored : ¬ stored 0 loose.
Proof. intros [id Hid]. simpl in Hid. by rewrite lookup_empty in Hid. Defined.

Lemma apart_not_stored : ¬ @stored Tally 0 apart.
Proof. intros [id Hid]. simpl in Hid. by rewrite lookup_empty in Hid. Defined.

Lemma addStatistic_merges_into_own_witness :
  let given := Tallied (Imm (JString "a")) 5 in
  let k := Imm (JString "a") in
  let st := (@stat Tally k apart).1 in
  let s' := (@addStatistic Tally Tally_merges 0 (Imm JUndefined) apart).2 in
  st ≠ 0 ∧
  __stats__ s' !! @entry Tally k apart = Some st ∧
  (∃ o, objects (@stat Tally k apart).2 !! st = Some o ∧
        (@addStatistic Tally Tally_merges 0 (Imm JUndefined) apart).1
        = (@Statistic_addStatistic Tally Tally_merges (Some given)
             (store (@stat Tally k apart).2) o).1 ∧
        objects s' !! st
        = Some (@Statistic_addStatistic Tally Tally_merges (Some given)
                  (store (@stat Tally k apart).2) o).2) ∧
  ¬ @stored Tally 0 s'.
Proof.
  apply (@addStatistic_merges_into_own Tally Tally_merges 0 (Imm JUndefined)
           apart (Tallied (Imm (JString "a")) 5)).
  - apply (@wf_Statistics Tally).
  - reflexivity.
  - apply apart_not_stored.
Defined.

(** The total of the argument reaches the bundle's own accumulator, created
    under the argument's keys; the argument keeps its place outside. *)
Example addStatistic_merges_total :
  let s' := (@addStatistic Tally Tally_merges 0 (Imm JUndefined) apart).2 in
  __stats__ s' !! QuoteJSONString "a" = Some 1 ∧
  objects s' = [Tallied (Imm (JString "a")) 5; Tallied (Imm (JString "a")) 5] ∧
  objects (@addStatistic Tally Tally_merges 0 (Imm JUndefined) s').2
  = [Tallied (Imm (JString "a")) 5; Tallied (Imm (JString "a")) 10].
Proof. vm_compute. done. Qed.

Lemma addStatistic_default_keys_witness :
  addStatistic 0 (Imm JUndefined) loose
  = addStatistic 0 (Imm (JString "a")) loose ∧
  is_Some (__stats__ (addStatistic 0 (Imm JUndefined) loose).2
             !! entry (Imm (JString "a")) loose).
Proof.
  exact (addStatistic_default_keys 0 loose (Recorded (JString "a") [])
           eq_refl).
Defined.

(** The accumulator given to [addStatistic] stays out of the table: the
    bundle gets an accumulator of its own under the same keys. *)
Example addStatistic_creates_its_own :
  let s := (addStatistic 0 (Imm JUndefined) loose).2 in
  __stats__ s !! QuoteJSONString "a" = Some 1 ∧ length (objects s) = 2.
Proof. vm_compute. done. Qed.

(** ** The asynchronous core at work *)

Module FutureRuns.
Import Future FutureFacts RetryFacts FutureDemo.

Lemma settles_at_most_once_witness :
  let w1 := settle 0 (Fulfill (JNumber 1)) waiting in
  let w2 := foldl (perform Strict) w1
                  [op_fail 0 "late"; op_turn; op_fulfill 0 (JNumber 2)] in
  state 0 w1 ≠ Some PENDING ∧
  state 0 w2 = state 0 w1 ∧
  (fulfill Lenient 0 (JNumber 3) w2).2 = w2 ∧
  (fail Lenient 0 "again" w2).2 = w2.
Proof.
  apply (settles_at_most_once Strict Lenient 0 (Fulfill (JNumber 1)) waiting).
  simpl. lia.
Defined.

(** The first settlement hands the continuation to the scheduler; a second
    settling call changes neither the Future nor the queue, and is reported
    under the strict policy only. *)
Example second_settlement :
  let w1 := (fulfill Strict 0 (JNumber 1) waiting).2 in
  state 0 w1 = Some (FULFILLED (JNumber 1)) ∧
  length (queue w1) = 1 ∧
  fail Strict 0 "late" w1 = (Throw "Future already settled", w1) ∧
  fail Lenient 0 "late" w1 = (Return (), w1) ∧
  state 1 (turn w1) = Some (FULFILLED (JNumber 1)).
Proof. vm_compute. done. Qed.

Lemma invoke_catches_witness :
  ∃ r, (invoke raising [] empty_world).1 = Return r ∧
       state r (invoke raising [] empty_world).2 = Some (REJECTED "boom").
Proof. apply (invoke_catches raising [] "boom" empty_world). reflexivity. Defined.

Example invoke_plain_value :
  let '(r, w) := invoke (λ _, Return (Plain (JNumber 7))) [] empty_world in
  r = Return 0 ∧ state 0 w = Some (FULFILLED (JNumber 7)).
Proof. vm_compute. done. Qed.

(** A [retry] started while another one is under way. *)
Lemma retry_attempts_witness :
  let w := reached Lenient [op_retry hopeless 3 (fixedDelay 1); op_turn] in
  let w1 := (retry flaky 3 (fixedDelay 10) w).2 in
  (retry flaky 3 (fixedDelay 10) w).1 = 2 ∧
  (∀ n, length (invocations_of 2 (run n w1)) ≤ 3) ∧
  (∃ n, ∀ m, n ≤ m →
     state 2 (run m w1) = Some (FULFILLED (JString "ok")) ∧
     invocations_of 2 (run m w1) = [0; 1; 2]).
Proof.
  intros w w1.
  destruct (retry_attempts Lenient
              [op_retry hopeless 3 (fixedDelay 1); op_turn]
              flaky 3 (fixedDelay 10)) as (Hbound & Hok & _).
  split; [reflexivity|]. split; [exact Hbound|].
  apply (Hok 2 5 (JString "ok")); [lia|reflexivity|].
  intros [|[|i]] Hi; [by eexists _, _..|lia].
Defined.

(** The run of section 8 of the specification: the action fails twice and
    then succeeds; the result is fulfilled with the third attempt's value
    after exactly three invocations, 5 + 10 + 5 + 10 + 5 time units on. *)
Example retry_flaky_run :
  let w := run 10 (retry flaky 3 (fixedDelay 10) empty_world).2 in
  state 0 w = Some (FULFILLED (JString "ok")) ∧
  invocations_of 0 w = [0; 1; 2] ∧
  clock w = 35 ∧
  queue w = [] ∧ timers w = [].
Proof. vm_compute. done. Qed.

Example retry_gives_up :
  let w := run 6 (retry flaky 2 (fixedDelay 10) empty_world).2 in
  state 0 w = Some (REJECTED "second") ∧ invocations_of 0 w = [0; 1].
Proof. vm_compute. done. Qed.

(** Two retries under way at once: their invocations alternate, each has
    its own count and its own result. *)
Example retries_side_by_side :
  let w0 := (retry hopeless 3 (fixedDelay 1) empty_world).2 in
  let w := run 20 (retry hopeless 2 (fixedDelay 1) w0).2 in
  invocations w = [(0, 0); (2, 0); (0, 1); (2, 1); (0, 2)] ∧
  invocations_of 0 w = [0; 1; 2] ∧ invocations_of 2 w = [0; 1] ∧
  state 0 w = Some (REJECTED "2") ∧ state 2 w = Some (REJECTED "1") ∧
  queue w = [] ∧ timers w = [].
Proof. vm_compute. done. Qed.

(** [all] keeps the input order whatever the order of settlement, and
    rejects as soon as an input rejects. *)
Example all_in_input_order :
  let w0 := (new_future (new_future empty_world).2).2 in
  let w1 := (all [0; 1] w0).2 in
  let w2 := settle 1 (Fulfill (JString "b")) w1 in
  let w3 := settle 0 (Fulfill (JString "a")) (turn w2) in
  state 2 w1 = Some PENDING ∧
  state 2 (turn w2) = Some PENDING ∧
  state 2 (turn w3) = Some (FULFILLED (JArray [JString "a"; JString "b"])).
Proof. vm_compute. done. Qed.

Example all_fails_fast :
  let w0 := (new_future (new_future empty_world).2).2 in
  let w1 := (all [0; 1] w0).2 in
  let w2 := turn (settle 1 (Fail "no") w1) in
  state 2 w2 = Some (REJECTED "no") ∧ state 0 w2 = Some PENDING.
Proof. vm_compute. done. Qed.

End FutureRuns.
